(** * Higuchi fractal dimension feature extractor ([methods/fractal.py])

    A shallow embedding of [higuchi_fractal] and of the NumPy operations it
    calls, with the properties of its scale selector, curve-length
    estimator, log-log regressor, batch driver and output reshaper, and of
    the per-subject loops of the two pipelines that use it.

    Numbers.  Python [int]s are [Z], array extents are [nat].  Every finite
    double is a real number, and array elements are modelled as reals [R]
    with exact sums, differences, products and quotients: the theorems
    describe the program up to the rounding of IEEE doubles, on data for
    which no intermediate result overflows.  Two results that the source
    obtains from double arithmetic inside NumPy, and whose last bit decides
    an integer or a returned value, are not computed here but are
    parameters of the embedding: the ten samples of [np.logspace] and the
    slope returned by [np.polyfit].  What a theorem needs of them is a
    hypothesis of that theorem.  Module [Ieee] repeats the per-signal loop
    on samples that may be infinite or NaN. *)

From Stdlib Require Import ZArith Reals Lra Lia Psatz Sorting.Sorted.
From stdpp Require Import base strings gmap list pretty.

Set Warnings "-register-all".

(** ** NumPy operations used by the source *)

(** Value of a floating-point expression that may leave the reals. *)
Inductive npfloat :=
| Finite (r : R)
| PosInf
| NegInf
| NaN.

Module Np.

(** [np.log]: minus infinity at zero, NaN below zero. *)
Definition log (x : R) : npfloat :=
  if Rlt_dec 0 x then Finite (ln x)
  else if Req_dec_T x 0 then NegInf
  else NaN.

Definition isinf (v : npfloat) : bool :=
  match v with PosInf | NegInf => true | _ => false end.

Definition isnan (v : npfloat) : bool :=
  match v with NaN => true | _ => false end.

(** The real carried by a finite value (the regression only ever receives
    finite values, see [points_coordinates]). *)
Definition to_real (v : npfloat) : R :=
  match v with Finite r => r | _ => 0%R end.

(** [a.sum()] *)
Definition sum (a : list R) : R := foldr Rplus 0%R a.

(** [a.mean()] *)
Definition mean (a : list R) : R := (sum a / INR (length a))%R.

(** [np.diff(a)]: [out[i] = a[i+1] - a[i]]. *)
Fixpoint diff (a : list R) : list R :=
  match a with
  | x :: (y :: _) as t => (y - x)%R :: diff t
  | _ => []
  end.

(** [np.abs(a)] *)
Definition abs (a : list R) : list R := map Rabs a.

(** [np.arange(start, stop, step)] for a positive step: the
    [ceil((stop - start) / step)] numbers [start + j * step]. *)
Definition arange (start stop step : nat) : list nat :=
  map (λ j, start + j * step)%nat (seq 0 ((stop - start + (step - 1)) / step)).

(** [a[idx]] with an index array (every index used by the source is in
    range, see [arange_in_range]). *)
Definition take (a : list R) (idx : list nat) : list R :=
  map (λ i, default 0%R (a !! i)) idx.

(** [a[mask]] with a boolean mask. *)
Fixpoint compress {A} (mask : list bool) (a : list A) : list A :=
  match mask, a with
  | b :: mask, x :: a => if b then x :: compress mask a else compress mask a
  | _, _ => []
  end.

(** [mask.sum()] *)
Definition count_nonzero (mask : list bool) : nat :=
  foldr (λ (b : bool) n, if b then S n else n) 0%nat mask.

(** [a.reshape(rows, cols)] of row-major data, as the list of its rows. *)
Definition reshape2 (rows cols : nat) (a : list R) : list (list R) :=
  map (λ i, firstn cols (skipn (i * cols) a)) (seq 0 rows).

(** The cast of a double to [int] ([dtype=int] in [np.logspace] is
    [astype(int)]): truncation toward zero. *)
Definition astype_int (v : R) : Z :=
  if Rle_dec 0 v then Int_part v else (- Int_part (- v))%Z.

(** Sample [i] of [np.logspace(0, np.log10(max_k), num=10)] in exact
    arithmetic: [10 ** (i * log10(max_k) / 9)]. *)
Definition logspace_exact (max_k : Z) (i : nat) : R :=
  Rpower 10 (INR i * (ln (IZR max_k) / ln 10) / 9).

(** The ten doubles [samples] that [np.logspace] returns lie within the
    relative error [err] of the exact samples.  (The double computation is
    [log10], one division, one multiplication and [pow]; which side of the
    exact value a sample falls on depends on the platform's [libm].) *)
Definition logspace_within (err : R) (max_k : Z) (samples : list R) : Prop :=
  length samples = 10%nat ∧
  ∀ i v, samples !! i = Some v →
    (Rabs (v - logspace_exact max_k i) <= err * logspace_exact max_k i)%R.

(** The ten samples in exact arithmetic: one function among those that
    [logspace_within] admits. *)
Definition logspace_ideal (max_k : Z) : list R :=
  map (logspace_exact max_k) (seq 0 10).

(** Insertion in an ascending duplicate-free list. *)
Fixpoint insert_uniq (x : Z) (l : list Z) : list Z :=
  match l with
  | [] => [x]
  | y :: t =>
      if (x <? y)%Z then x :: y :: t
      else if (x =? y)%Z then y :: t
      else y :: insert_uniq x t
  end.

(** [np.unique]: the sorted distinct elements. *)
Definition unique (l : list Z) : list Z := foldr insert_uniq [] l.

(** The coefficients [(slope, intercept)] of the least-squares line
    through the points [(x, y)], from the normal equations: the numbers
    that [np.polyfit(x, y, 1)] approximates in doubles. *)
Definition polyfit1 (x y : list R) : R * R :=
  let n := INR (length x) in
  let sx := sum x in
  let sy := sum y in
  let sxx := sum (zip_with Rmult x x) in
  let sxy := sum (zip_with Rmult x y) in
  let slope := ((n * sxy - sx * sy) / (n * sxx - sx * sx))%R in
  (slope, ((sy - slope * sx) / n)%R).

(** The slope in exact arithmetic. *)
Definition polyfit_ideal (x y : list R) : R := (polyfit1 x y).1.

End Np.

(** ** Python values and exceptions *)

Inductive exn :=
| ValueError (msg : string)
| KeyError (msg : string)
| TypeError (msg : string).

Record ndarray := NdArray { shape : list nat; data : list R }.

(** [PyNdarray] is an array of doubles.  [PyNdarrayOther] is an
    [np.ndarray] of a dtype that NumPy cannot average, an array of strings
    for instance: its shape, and the exception that [a.mean()] raises on
    one of its rows (a [TypeError] whose text depends on the dtype and on
    the NumPy version). *)
Inductive pyval :=
| PyNone
| PyBool (b : bool)
| PyInt (z : Z)
| PyFloat (r : R)
| PyStr (s : string)
| PyNdarray (a : ndarray)
| PyNdarrayOther (shp : list nat) (mean_error : exn)
| PyDict (d : gmap string pyval).

Inductive result (A : Type) :=
| Ok (a : A)
| Raise (e : exn).
Arguments Ok {A} a.
Arguments Raise {A} e.

#[export] Instance result_ret : MRet result := λ A a, Ok a.
#[export] Instance result_bind : MBind result := λ A B f r,
  match r with Ok a => f a | Raise e => Raise e end.

(** [isinstance(v, int)]: [bool] is a subclass of [int]. *)
Definition as_int (v : pyval) : option Z :=
  match v with
  | PyInt z => Some z
  | PyBool b => Some (if b then 1 else 0)%Z
  | _ => None
  end.

(** [repr] of a tuple of integers, as the f-string prints [X.shape]. *)
Definition tuple_repr (t : list nat) : string :=
  match t with
  | [] => "()"
  | [n] => "(" +:+ pretty n +:+ ",)"
  | n :: t => "(" +:+ foldl (λ s m, s +:+ ", " +:+ pretty m) (pretty n) t +:+ ")"
  end.

(** The five exceptions the function raises, under the names of the error
    taxonomy. *)
Definition InvalidPayloadError : exn :=
  ValueError "eegdata must be a dict containing key 'X'.".
Definition MissingFieldError : exn :=
  KeyError "eegdata must contain key 'X'.".
Definition InvalidParameterError : exn :=
  ValueError "kmax must be an integer >= 2.".
Definition InvalidTensorTypeError : exn :=
  ValueError "eegdata['X'] must be a numpy.ndarray.".
Definition InvalidShapeError (s : list nat) : exn :=
  ValueError ("Unsupported shape for higuchi_fractal: " +:+ tuple_repr s +:+
    ". Expected 3D (trials, electrodes, time) or 4D (trials, bands, electrodes, time).").

(** Row-major offset of a multi-index, [None] when out of bounds. *)
Fixpoint ravel (shp idx : list nat) (acc : nat) : option nat :=
  match shp, idx with
  | [], [] => Some acc
  | d :: shp, i :: idx =>
      if decide (i < d)%nat then ravel shp idx (acc * d + i)%nat else None
  | _, _ => None
  end.

(** [a[i, j, ...]] *)
Definition nd_get (a : ndarray) (idx : list nat) : option R :=
  ravel (shape a) idx 0%nat ≫= λ off, data a !! off.

(** ** The feature extractor *)

Module Higuchi.

Definition eps : R := (1 / 10 ^ 12)%R.

(** Body of [for m in range(k)] (source lines 128-134) on the state
    [(sum_l, count)]. *)
Definition offset_step (sig : list R) (n_time : nat) (k : Z)
    (st : R * nat) (m : nat) : R * nat :=
  let idx := Np.arange m n_time (Z.to_nat k) in
  if decide (2 ≤ length idx)%nat then
    let seg := Np.take sig idx in
    let d := Np.abs (Np.diff seg) in
    let L_mk :=
      (Np.sum d * IZR (Z.of_nat n_time - 1) / IZR (Z.of_nat (length d) * k))%R in
    ((st.1 + L_mk)%R, S st.2)
  else st.

(** The loop over the offsets, from [sum_l = 0.0], [count = 0]. *)
Definition offset_loop (sig : list R) (n_time : nat) (k : Z) : R * nat :=
  foldl (offset_step sig n_time k) (0%R, 0%nat) (seq 0 (Z.to_nat k)).

(** [Lk = sum_l / count] (source line 138). *)
Definition Lk (sig : list R) (n_time : nat) (k : Z) : R :=
  let st := offset_loop sig n_time k in (st.1 / INR st.2)%R.

(** The value stored in [lk[si]] (source lines 135-139). *)
Definition lk_entry (sig : list R) (n_time : nat) (k : Z) : npfloat :=
  if decide ((offset_loop sig n_time k).2 = 0%nat) then Finite 0%R
  else Np.log (Lk sig n_time k + eps)%R.

(** [sig = sig - sig.mean()] *)
Definition center (sig : list R) : list R :=
  map (λ v, v - Np.mean sig)%R sig.

(** The mask [valid = ~np.isinf(lk) & ~np.isnan(lk)]. *)
Definition valid_mask (lk : list npfloat) : list bool :=
  map (λ v, negb (Np.isinf v) && negb (Np.isnan v)) lk.

(** [max_k = min(kmax, n_time // 2)] *)
Definition max_k_of (kmax : Z) (n_time : nat) : Z :=
  Z.min kmax (Z.of_nat (n_time / 2)).

(** Source lines 100-107: a rank-3 array gets a singleton band axis, any
    rank other than 3 or 4 is refused; the result is
    [(trials, bands, electrodes, time)]. *)
Definition normalize_shape (a : ndarray) : result (nat * nat * nat * nat) :=
  match shape a with
  | [t; e; n] => Ok (t, 1%nat, e, n)
  | [t; b; e; n] => Ok (t, b, e, n)
  | s => Raise (InvalidShapeError s)
  end.

(** Source lines 88-89. *)
Definition clamp_kmax (kmax : Z) : Z :=
  if decide (kmax < 2)%Z then 2%Z else kmax.

(** Source lines 91-94.  [kwargs] holds the keyword arguments that match
    no named parameter; their values are taken to be booleans, as the
    docstring requires. *)
Definition effective_flating (flating : bool) (kwargs : gmap string bool) : bool :=
  let flating :=
    match kwargs !! "flattening" with Some b => flating || b | None => flating end in
  match kwargs !! "flating" with Some b => flating || b | None => flating end.

Section Platform.

(** [logspace max_k]: the ten doubles of
    [np.logspace(0, np.log10(max_k), num=10)], before the cast to [int]. *)
Variable logspace : Z → list R.

(** [polyfit x y]: the double [np.polyfit(x, y, 1)[0]]. *)
Variable polyfit : list R → list R → R.

(** Source lines 140-146: the value stored in [hfd_vals[i]], from the
    scales and the array [lk]. *)
Definition fit_slope (scales : list Z) (lk : list npfloat) : R :=
  let valid := valid_mask lk in
  if decide (Np.count_nonzero valid < 2)%nat then 0%R
  else
    polyfit
      (map (λ k, Np.to_real (Np.log (1 / IZR k)%R)) (Np.compress valid scales))
      (map Np.to_real (Np.compress valid lk)).

(** Body of [for i, sig in enumerate(X_flat)] (source lines 122-146). *)
Definition hfd_signal (scales : list Z) (n_time : nat) (sig : list R) : R :=
  let sig := center sig in
  let lk := map (lk_entry sig n_time) scales in
  fit_slope scales lk.

(** [scales = np.unique(np.logspace(0, np.log10(max_k), num=10, dtype=int))]
    followed by [scales = scales[scales >= 1]]. *)
Definition scales_of (max_k : Z) : list Z :=
  filter (λ k, (1 ≤ k)%Z) (Np.unique (map Np.astype_int (logspace max_k))).

(** Source lines 110-146: [hfd_vals] from the clamped [kmax], the time
    length and the rows of [X_flat]. *)
Definition hfd_vals (kmax : Z) (n_time : nat) (X_flat : list (list R)) : list R :=
  if decide (n_time < 10)%nat then replicate (length X_flat) 0%R
  else
    let max_k := max_k_of kmax n_time in
    if decide (max_k < 2)%Z then replicate (length X_flat) 0%R
    else
      let scales := scales_of max_k in
      map (hfd_signal scales n_time) X_flat.

(** The same lines on an array that NumPy cannot average: the two
    [np.zeros] branches do not look at the data, and the loop raises at
    [sig.mean()] on the first row. *)
Definition hfd_vals_other (kmax : Z) (n_time rows : nat) (mean_error : exn)
    : result (list R) :=
  if decide (n_time < 10)%nat then Ok (replicate rows 0%R)
  else if decide (max_k_of kmax n_time < 2)%Z then Ok (replicate rows 0%R)
  else if decide (rows = 0)%nat then Ok []
  else Raise mean_error.

(** [higuchi_fractal(eegdata, kmax, flating, **kwargs)].  The returned
    dictionary is the argument with key ['X'] overwritten. *)
Definition higuchi_fractal (eegdata kmax : pyval) (flating : bool)
    (kwargs : gmap string bool) : result pyval :=
  match eegdata with
  | PyDict d =>
      match d !! "X" with
      | None => Raise MissingFieldError
      | Some X =>
          match as_int kmax with
          | None => Raise InvalidParameterError
          | Some kmax =>
              let kmax := clamp_kmax kmax in
              let flating := effective_flating flating kwargs in
              match X with
              | PyNdarray a =>
                  '(trials, bands, electrodes, time) ← normalize_shape a;
                  let X_flat :=
                    Np.reshape2 (trials * bands * electrodes) time (data a) in
                  let vals := hfd_vals kmax time X_flat in
                  let out :=
                    if flating then NdArray [trials; (bands * electrodes)%nat] vals
                    else NdArray [trials; bands; electrodes] vals in
                  Ok (PyDict (<["X" := PyNdarray out]> d))
              | PyNdarrayOther shp mean_error =>
                  '(trials, bands, electrodes, time) ←
                    normalize_shape (NdArray shp []);
                  vals ← hfd_vals_other kmax time (trials * bands * electrodes)
                           mean_error;
                  let out :=
                    if flating then NdArray [trials; (bands * electrodes)%nat] vals
                    else NdArray [trials; bands; electrodes] vals in
                  Ok (PyDict (<["X" := PyNdarray out]> d))
              | _ => Raise InvalidTensorTypeError
              end
          end
      end
  | _ => Raise InvalidPayloadError
  end.

End Platform.

End Higuchi.

(** ** The per-signal loop on samples that may be infinite or NaN

    The arithmetic of IEEE doubles on the two infinities and NaN, exact on
    finite operands: neither rounding nor the overflow of finite operands
    is modelled.  The source divides by positive integers only, so the
    sign of a zero never matters; a zero divisor is read as [+0]. *)

Module Ieee.

Definition opp (a : npfloat) : npfloat :=
  match a with
  | Finite x => Finite (- x)
  | PosInf => NegInf
  | NegInf => PosInf
  | NaN => NaN
  end.

Definition add (a b : npfloat) : npfloat :=
  match a, b with
  | NaN, _ | _, NaN => NaN
  | Finite x, Finite y => Finite (x + y)
  | PosInf, NegInf | NegInf, PosInf => NaN
  | PosInf, _ | _, PosInf => PosInf
  | NegInf, _ | _, NegInf => NegInf
  end.

Definition sub (a b : npfloat) : npfloat := add a (opp b).

Definition abs (a : npfloat) : npfloat :=
  match a with
  | Finite x => Finite (Rabs x)
  | PosInf | NegInf => PosInf
  | NaN => NaN
  end.

(** An infinity of the sign of [x], NaN at zero. *)
Definition signed_inf (x : R) : npfloat :=
  if Rlt_dec 0 x then PosInf else if Rlt_dec x 0 then NegInf else NaN.

Definition mul (a b : npfloat) : npfloat :=
  match a, b with
  | NaN, _ | _, NaN => NaN
  | Finite x, Finite y => Finite (x * y)
  | Finite x, PosInf | PosInf, Finite x => signed_inf x
  | Finite x, NegInf | NegInf, Finite x => signed_inf (- x)
  | PosInf, PosInf | NegInf, NegInf => PosInf
  | PosInf, NegInf | NegInf, PosInf => NegInf
  end.

Definition div (a b : npfloat) : npfloat :=
  match a, b with
  | NaN, _ | _, NaN => NaN
  | Finite x, Finite y =>
      if Req_dec_T y 0 then signed_inf x else Finite (x / y)
  | Finite _, _ => Finite 0
  | PosInf, Finite y => if Rle_dec 0 y then PosInf else NegInf
  | NegInf, Finite y => if Rle_dec 0 y then NegInf else PosInf
  | _, _ => NaN
  end.

(** [np.log] *)
Definition log (a : npfloat) : npfloat :=
  match a with
  | Finite x => Np.log x
  | PosInf => PosInf
  | _ => NaN
  end.

(** [a.sum()] *)
Definition sum (a : list npfloat) : npfloat := foldr add (Finite 0) a.

(** [a.mean()] *)
Definition mean (a : list npfloat) : npfloat :=
  div (sum a) (Finite (INR (length a))).

(** [np.diff(a)] *)
Fixpoint diff (a : list npfloat) : list npfloat :=
  match a with
  | x :: (y :: _) as t => sub y x :: diff t
  | _ => []
  end.

(** [a[idx]] *)
Definition take (a : list npfloat) (idx : list nat) : list npfloat :=
  map (λ i, default (Finite 0) (a !! i)) idx.

(** Body of [for m in range(k)] (source lines 128-134). *)
Definition offset_step (sig : list npfloat) (n_time : nat) (k : Z)
    (st : npfloat * nat) (m : nat) : npfloat * nat :=
  let idx := Np.arange m n_time (Z.to_nat k) in
  if decide (2 ≤ length idx)%nat then
    let seg := take sig idx in
    let d := map abs (diff seg) in
    let L_mk :=
      div (mul (sum d) (Finite (IZR (Z.of_nat n_time - 1))))
          (Finite (IZR (Z.of_nat (length d) * k))) in
    (add st.1 L_mk, S st.2)
  else st.

Definition offset_loop (sig : list npfloat) (n_time : nat) (k : Z)
    : npfloat * nat :=
  foldl (offset_step sig n_time k) (Finite 0, 0%nat) (seq 0 (Z.to_nat k)).

(** [Lk = sum_l / count] *)
Definition Lk (sig : list npfloat) (n_time : nat) (k : Z) : npfloat :=
  let st := offset_loop sig n_time k in div st.1 (Finite (INR st.2)).

(** The value stored in [lk[si]] (source lines 135-139). *)
Definition lk_entry (sig : list npfloat) (n_time : nat) (k : Z) : npfloat :=
  if decide ((offset_loop sig n_time k).2 = 0%nat) then Finite 0
  else log (add (Lk sig n_time k) (Finite Higuchi.eps)).

(** [sig = sig - sig.mean()] *)
Definition center (sig : list npfloat) : list npfloat :=
  map (λ v, sub v (mean sig)) sig.

(** Body of [for i, sig in enumerate(X_flat)] (source lines 122-146). *)
Definition hfd_signal (polyfit : list R → list R → R) (scales : list Z)
    (n_time : nat) (sig : list npfloat) : R :=
  let sig := center sig in
  let lk := map (lk_entry sig n_time) scales in
  Higuchi.fit_slope polyfit scales lk.

(** Source lines 110-146 on rows of such samples. *)
Definition hfd_vals (logspace : Z → list R) (polyfit : list R → list R → R)
    (kmax : Z) (n_time : nat) (X_flat : list (list npfloat)) : list R :=
  if decide (n_time < 10)%nat then replicate (length X_flat) 0%R
  else
    let max_k := Higuchi.max_k_of kmax n_time in
    if decide (max_k < 2)%Z then replicate (length X_flat) 0%R
    else
      let scales := Higuchi.scales_of logspace max_k in
      map (hfd_signal polyfit scales n_time) X_flat.

End Ieee.

(** ** The estimator and the regressor in the words of the specification

    Second definitions, written from the prose of the design document and
    independent of the loops and of the NumPy operations above; the
    theorems below compare the two. *)

Module Spec.

(** The subsequence [sig[m], sig[m+k], sig[m+2k], ...], read off until the
    index leaves the signal. *)
Fixpoint subseq_from (fuel : nat) (sig : list R) (k i : nat) : list R :=
  match fuel with
  | O => []
  | S fuel =>
      match sig !! i with
      | Some v => v :: subseq_from fuel sig k (i + k)
      | None => []
      end
  end.

Definition subsequence (sig : list R) (m k : nat) : list R :=
  subseq_from (length sig) sig k m.

(** An offset qualifies when its subsequence has at least 2 samples. *)
Definition qualifies (sig : list R) (k m : nat) : Prop :=
  (2 ≤ length (subsequence sig m k))%nat.

#[global] Instance qualifies_dec sig k m : Decision (qualifies sig k m).
Proof. unfold qualifies. apply _. Defined.

(** Sum of the absolute first differences. *)
Fixpoint abs_diff_sum (s : list R) : R :=
  match s with
  | x :: (y :: _) as t => (Rabs (y - x) + abs_diff_sum t)%R
  | _ => 0%R
  end.

(** [L(m,k) = (sum(d) * (N-1)) / (count(d) * k)] with [count(d)] the
    subsequence length minus one. *)
Definition L (sig : list R) (k m : nat) : R :=
  let s := subsequence sig m k in
  (abs_diff_sum s * (INR (length sig) - 1) / ((INR (length s) - 1) * INR k))%R.

(** The offsets of [[0, k)] that qualify. *)
Definition qualifying_offsets (sig : list R) (k : nat) : list nat :=
  filter (qualifies sig k) (seq 0 k).

(** The sum of a list of numbers. *)
Fixpoint total (l : list R) : R :=
  match l with
  | [] => 0%R
  | x :: l => (x + total l)%R
  end.

(** The centred signal: every sample minus the arithmetic mean. *)
Definition centred (sig : list R) : list R :=
  let mean := (total sig / INR (length sig))%R in
  map (λ v, (v - mean)%R) sig.

(** [Lk]: the arithmetic mean of [L(m,k)] over the qualifying offsets,
    and 0 when no offset qualifies. *)
Definition Lk (sig : list R) (k : nat) : R :=
  let qs := qualifying_offsets sig k in
  match qs with
  | [] => 0%R
  | _ => (total (map (L sig k) qs) / INR (length qs))%R
  end.

(** The stabiliser [1e-12]. *)
Definition epsilon : R := (/ 1000000000000)%R.

(** The ordinates [y = log(Lk + epsilon)] over the scales, with the
    natural logarithm of the reals. *)
Definition ordinates (sig : list R) (scales : list Z) : list npfloat :=
  map (λ k, Finite (ln (Lk sig (Z.to_nat k) + epsilon))) scales.

(** The regression points [(x, y)] with [x = log(1/k)], those whose [y]
    is infinite or NaN discarded. *)
Definition points (scales : list Z) (ys : list npfloat) : list (R * R) :=
  omap (λ p : Z * npfloat,
    match p.2 with
    | Finite y => Some (ln (1 / IZR p.1), y)
    | _ => None
    end) (zip scales ys).

(** Sum of squared residuals of the line [y = a * x + b]. *)
Definition sse (pts : list (R * R)) (a b : R) : R :=
  total (map (λ p : R * R, (p.2 - (a * p.1 + b)) ^ 2)%R pts).

(** [slope] is the slope of the ordinary least-squares line through
    [pts]: some intercept makes the line minimise the squared residuals,
    and every minimising line has this slope. *)
Definition ols_slope (pts : list (R * R)) (slope : R) : Prop :=
  (∃ intercept, ∀ a b, (sse pts slope intercept <= sse pts a b)%R) ∧
  (∀ a b, (∀ a' b', (sse pts a b <= sse pts a' b')%R) → a = slope).

(** What the documentation of [np.polyfit] promises of the slope it
    returns: the least-squares slope, whenever two of the points differ
    in their abscissa. *)
Definition least_squares (polyfit : list R → list R → R) : Prop :=
  ∀ pts p q, p ∈ pts → q ∈ pts → p.1 ≠ q.1 →
    ols_slope pts (polyfit (map fst pts) (map snd pts)).

End Spec.
(** ** The per-subject drivers ([pipelines/csp_fractal.py],
    [pipelines/fbcsp_fractal.py])

    Both files define [process_all_subjects] with the same loop.  What the
    [try] block computes between its two [print]s (dataset loading, the
    cross-validation of [bciflow], the accuracy metric) lives outside the
    repository; it is the parameter [evaluate], which returns the accuracy
    of a subject or raises.  The two format conversions of the f-strings,
    [{acc:.4f}] and [{e}], are the parameters [fmt4] and [exn_str]. *)

Module Pipeline.

Section Subjects.

Variable evaluate : nat → result R.
Variable fmt4 : R → string.
Variable exn_str : exn → string.

(** Body of [for subject in range(...)] on the state
    [(accuracies, printed lines)]. *)
Definition subject_step (st : list (option R) * list string) (subject : nat)
    : list (option R) * list string :=
  let out := st.2 ++ ["Processando sujeito " +:+ pretty subject +:+ "..."] in
  match evaluate subject with
  | Ok acc =>
      (st.1 ++ [Some acc],
       out ++ ["Sujeito " +:+ pretty subject +:+ ": Accuracy = " +:+ fmt4 acc])
  | Raise e =>
      (st.1 ++ [None],
       out ++ ["Erro ao processar sujeito " +:+ pretty subject +:+ ": "
               +:+ exn_str e])
  end.

(** The loop from [accuracies = []]. *)
Definition process_subjects (subjects : list nat)
    : list (option R) * list string :=
  foldl subject_step ([], []) subjects.

End Subjects.

(** [csp_fractal.process_all_subjects]: [range(1, 10)]. *)
Definition csp_fractal_all (evaluate : nat → result R) (fmt4 : R → string)
    (exn_str : exn → string) : list (option R) * list string :=
  process_subjects evaluate fmt4 exn_str (seq 1 9).

(** [fbcsp_fractal.process_all_subjects]: [range(1, 11)]. *)
Definition fbcsp_fractal_all (evaluate : nat → result R) (fmt4 : R → string)
    (exn_str : exn → string) : list (option R) * list string :=
  process_subjects evaluate fmt4 exn_str (seq 1 10).

(** [[acc for acc in all_accuracies if acc is not None]] *)
Definition valid_accuracies (accs : list (option R)) : list R :=
  omap (λ acc : option R, acc) accs.

(** The builtin [sum]. *)
Definition py_sum (l : list R) : R := foldl Rplus 0%R l.

(** The three statistics printed under [if valid_accuracies:], in the
    order mean, max, min; [None] when the list is empty and nothing is
    printed. *)
Definition summary (accs : list (option R)) : option (R * R * R) :=
  match valid_accuracies accs with
  | [] => None
  | (x :: t) as valid =>
      Some ((py_sum valid / INR (length valid))%R,
            foldl Rmax x t, foldl Rmin x t)
  end.

End Pipeline.
(** ** The scale selector *)

Section ScaleSelector.

Lemma insert_uniq_elem x y l : y ∈ Np.insert_uniq x l ↔ y = x ∨ y ∈ l.
Proof.
  induction l as [|z t IH]; simpl.
  - rewrite list_elem_of_singleton, elem_of_nil. tauto.
  - destruct (Z.ltb_spec x z).
    { rewrite elem_of_cons. tauto. }
    destruct (Z.eqb_spec x z) as [->|Hne].
    { rewrite elem_of_cons. tauto. }
    rewrite !elem_of_cons, IH. tauto.
Qed.

Lemma insert_uniq_sorted x l :
  StronglySorted Z.lt l → StronglySorted Z.lt (Np.insert_uniq x l).
Proof.
  induction 1 as [|z t Hs IH Hall]; simpl.
  - repeat constructor.
  - destruct (Z.ltb_spec x z).
    + constructor; [by constructor|].
      constructor; [done|]. eapply Forall_impl; [exact Hall|]. simpl; lia.
    + destruct (Z.eqb_spec x z); [by constructor|].
      constructor; [done|].
      apply Forall_forall. intros y Hy.
      apply insert_uniq_elem in Hy as [->|Hy]; [lia|].
      by eapply Forall_forall in Hall.
Qed.

Lemma insert_uniq_length x l :
  (length l ≤ length (Np.insert_uniq x l) ≤ S (length l))%nat.
Proof.
  induction l as [|z t IH]; simpl; [lia|].
  destruct (Z.ltb_spec x z); simpl; [lia|].
  destruct (Z.eqb_spec x z); simpl; lia.
Qed.

Lemma unique_elem y l : y ∈ Np.unique l ↔ y ∈ l.
Proof.
  induction l as [|x t IH]; simpl; [done|].
  rewrite insert_uniq_elem, elem_of_cons, IH. tauto.
Qed.

Lemma unique_sorted l : StronglySorted Z.lt (Np.unique l).
Proof.
  induction l; simpl; [constructor|by apply insert_uniq_sorted].
Qed.

Lemma unique_length l : (length (Np.unique l) ≤ length l)%nat.
Proof.
  induction l as [|x t IH]; simpl; [lia|].
  pose proof (insert_uniq_length x (Np.unique t)). lia.
Qed.

Lemma sorted_lt_NoDup (l : list Z) : StronglySorted Z.lt l → NoDup l.
Proof.
  induction 1 as [|x t Hs IH Hall]; constructor; [|done].
  intros Hin. eapply Forall_forall in Hall; [|exact Hin]. lia.
Qed.

Lemma sorted_lt_filter (P : Z → Prop) `{!∀ x, Decision (P x)} (l : list Z) :
  StronglySorted Z.lt l → StronglySorted Z.lt (filter P l).
Proof.
  induction 1 as [|x t Hs IH Hall]; [constructor|].
  rewrite filter_cons. destruct (decide (P x)); [|done].
  constructor; [done|].
  apply Forall_forall. intros y Hy.
  apply list_elem_of_filter in Hy as [_ Hy].
  by eapply Forall_forall in Hall.
Qed.

(** The cast never exceeds its argument, nor any integer bound of it. *)
Lemma astype_int_upper (v : R) (m : Z) :
  (0 ≤ m)%Z → (v < IZR m + 1)%R → (Np.astype_int v ≤ m)%Z.
Proof.
  intros Hm Hv. unfold Np.astype_int.
  destruct (Rle_dec 0 v) as [Hpos|Hneg].
  - destruct (base_Int_part v) as [Hle _].
    assert (IZR (Int_part v) < IZR (m + 1))%R as Hlt by (rewrite plus_IZR; lra).
    apply lt_IZR in Hlt. lia.
  - destruct (base_Int_part (- v)) as [_ Hgt].
    assert (IZR (-1) < IZR (Int_part (- v)))%R as Hlt by lra.
    apply lt_IZR in Hlt. lia.
Qed.

Lemma astype_int_IZR (z : Z) : Np.astype_int (IZR z) = z.
Proof.
  unfold Np.astype_int.
  assert (∀ y : Z, Int_part (IZR y) = y) as Hint.
  { intros y. destruct (base_Int_part (IZR y)) as [Hle Hgt].
    assert (IZR (Int_part (IZR y)) < IZR (y + 1))%R as H1
      by (rewrite plus_IZR; lra).
    assert (IZR (y - 1) < IZR (Int_part (IZR y)))%R as H2
      by (rewrite minus_IZR; lra).
    apply lt_IZR in H1, H2. lia. }
  destruct (Rle_dec 0 (IZR z)); [apply Hint|].
  rewrite <- opp_IZR, Hint. lia.
Qed.

(** The exact sample [i] is [max_k ** (i / 9)]. *)
Lemma logspace_exact_power (max_k : Z) (i : nat) :
  Np.logspace_exact max_k i = Rpower (IZR max_k) (INR i / 9).
Proof.
  unfold Np.logspace_exact, Rpower. f_equal.
  assert (ln 10 ≠ 0)%R by (apply ln_neq_0; lra).
  field. done.
Qed.

(** It lies between 1 and [max_k]. *)
Lemma logspace_exact_range (max_k : Z) (i : nat) :
  (1 ≤ max_k)%Z → (i ≤ 9)%nat →
  (1 <= Np.logspace_exact max_k i <= IZR max_k)%R.
Proof.
  intros Hk Hi. rewrite logspace_exact_power.
  assert (1 <= IZR max_k)%R as HM by (apply IZR_le; lia).
  assert (0 <= INR i / 9 <= 1)%R as [Hlo Hhi].
  { pose proof (pos_INR i). apply le_INR in Hi. simpl in Hi. lra. }
  split.
  - rewrite <- (Rpower_O (IZR max_k)) at 1 by lra.
    apply Rle_Rpower; lra.
  - rewrite <- (Rpower_1 (IZR max_k)) at 2 by lra.
    apply Rle_Rpower; lra.
Qed.

(** A double sample within relative error [err] of the exact one casts to
    an integer that is at most [max_k], as long as [err * max_k < 1]. *)
Lemma logspace_sample_upper (err : R) (max_k : Z) (samples : list R) (v : R) :
  (1 ≤ max_k)%Z → (err * IZR max_k < 1)%R →
  Np.logspace_within err max_k samples → v ∈ samples →
  (Np.astype_int v ≤ max_k)%Z.
Proof.
  intros Hk Herr [Hlen Hacc] Hin.
  apply list_elem_of_lookup_1 in Hin as [i Hi].
  pose proof (lookup_lt_Some _ _ _ Hi) as Hlt. rewrite Hlen in Hlt.
  specialize (Hacc i v Hi).
  destruct (logspace_exact_range max_k i Hk ltac:(lia)) as [Hlo Hhi].
  set (e := Np.logspace_exact max_k i) in *.
  apply astype_int_upper; [lia|].
  pose proof (Rabs_pos (v - e)) as Habs.
  pose proof (Rle_abs (v - e)) as Hle.
  assert (0 <= err)%R as Hpos.
  { destruct (Rle_dec 0 err) as [|Hneg]; [done|]. exfalso.
    assert (err * e < 0)%R; [|lra].
    replace (err * e)%R with (- ((- err) * e))%R by ring.
    assert (0 < (- err) * e)%R; [apply Rmult_lt_0_compat; lra|lra]. }
  assert (err * e <= err * IZR max_k)%R by (apply Rmult_le_compat_l; lra).
  lra.
Qed.

Section Samples.

Variable logspace : Z → list R.

Lemma scales_of_elem max_k k :
  k ∈ Higuchi.scales_of logspace max_k ↔
  (1 ≤ k)%Z ∧ ∃ v, v ∈ logspace max_k ∧ k = Np.astype_int v.
Proof.
  unfold Higuchi.scales_of.
  rewrite list_elem_of_filter, unique_elem, list_elem_of_fmap.
  split; intros [Hk (v & H1 & H2)]; (split; [done|]); exists v; done.
Qed.

Lemma scales_of_sorted max_k :
  StronglySorted Z.lt (Higuchi.scales_of logspace max_k).
Proof. apply sorted_lt_filter, unique_sorted. Qed.

Lemma scales_of_length max_k :
  (length (Higuchi.scales_of logspace max_k) ≤ length (logspace max_k))%nat.
Proof.
  unfold Higuchi.scales_of.
  etrans; [apply length_filter|].
  etrans; [apply unique_length|].
  by rewrite length_map.
Qed.

Lemma scales_of_range (err : R) max_k k :
  (1 ≤ max_k)%Z → (err * IZR max_k < 1)%R →
  Np.logspace_within err max_k (logspace max_k) →
  k ∈ Higuchi.scales_of logspace max_k → (1 ≤ k ≤ max_k)%Z.
Proof.
  intros Hk Herr Hacc [Hlo (v & Hv & ->)]%scales_of_elem.
  split; [done|]. by eapply logspace_sample_upper.
Qed.

End Samples.

Lemma logspace_ideal_within (max_k : Z) :
  Np.logspace_within 0 max_k (Np.logspace_ideal max_k).
Proof.
  split; [done|]. intros i v Hi. unfold Np.logspace_ideal in Hi.
  rewrite list_lookup_fmap in Hi.
  destruct (seq 0 10 !! i) as [j|] eqn:Hj; [|done].
  apply lookup_seq in Hj as [-> _]. simpl in Hi. injection Hi as <-.
  rewrite Rminus_diag, Rabs_R0. lra.
Qed.

(** C6.  Whenever the effective maximum scale [max_k = min(kmax, N // 2)]
    is at least 2, the scale set is strictly increasing, hence free of
    duplicates, has at most 10 elements, and each of them lies between 1
    and [max_k] inclusive.  The first three hold whatever ten doubles
    [np.logspace] returns; the upper bound holds when these are within a
    relative error [err] of the exact samples with [err * max_k < 1]
    (the rounding errors of double arithmetic are of the order
    [1e-15]). *)
Theorem scale_set_invariant (logspace : Z → list R) (err : R)
    (kmax : Z) (n_time : nat) :
  let max_k := Higuchi.max_k_of kmax n_time in
  (2 ≤ max_k)%Z →
  (err * IZR max_k < 1)%R →
  Np.logspace_within err max_k (logspace max_k) →
  let scales := Higuchi.scales_of logspace max_k in
  StronglySorted Z.lt scales ∧
  NoDup scales ∧
  (length scales ≤ 10)%nat ∧
  Forall (λ k, 1 ≤ k ≤ max_k)%Z scales.
Proof.
  intros max_k Hk Herr Hacc scales.
  split; [apply scales_of_sorted|].
  split; [apply sorted_lt_NoDup, scales_of_sorted|].
  split.
  { destruct Hacc as [Hlen _]. rewrite <- Hlen. apply scales_of_length. }
  apply Forall_forall. intros k Hin.
  eapply scales_of_range; [|exact Herr|exact Hacc|exact Hin]. lia.
Qed.

Lemma scale_set_invariant_witness :
  let max_k := Higuchi.max_k_of 50 256 in
  let scales := Higuchi.scales_of Np.logspace_ideal max_k in
  (2 ≤ max_k)%Z ∧
  (0 * IZR max_k < 1)%R ∧
  Np.logspace_within 0 max_k (Np.logspace_ideal max_k) ∧
  StronglySorted Z.lt scales ∧
  NoDup scales ∧
  (length scales ≤ 10)%nat ∧
  Forall (λ k, 1 ≤ k ≤ max_k)%Z scales.
Proof.
  intros max_k scales.
  assert (2 ≤ max_k)%Z as H1 by (vm_compute; discriminate).
  assert (0 * IZR max_k < 1)%R as H2 by lra.
  pose proof (logspace_ideal_within max_k) as H3.
  split; [exact H1|]. split; [exact H2|]. split; [exact H3|].
  exact (scale_set_invariant Np.logspace_ideal 0 50 256 H1 H2 H3).
Defined.

End ScaleSelector.

(** ** The curve-length estimator *)

Section CurveLength.

Lemma ceil_div_step (n i k : nat) :
  (1 ≤ k)%nat → (i < n)%nat →
  ((n - i + (k - 1)) / k = S ((n - (i + k) + (k - 1)) / k))%nat.
Proof.
  intros Hk Hi.
  destruct (decide (n - i ≤ k)%nat) as [Hle|Hgt].
  - replace (n - (i + k))%nat with 0%nat by lia.
    rewrite (Nat.div_small (0 + (k - 1)) k) by lia.
    symmetry. apply Nat.div_unique with (r := (n - i - 1)%nat); lia.
  - replace (n - i + (k - 1))%nat with ((n - (i + k) + (k - 1)) + 1 * k)%nat by lia.
    rewrite Nat.div_add by lia. lia.
Qed.

Lemma arange_nil (i n k : nat) : (n ≤ i)%nat → Np.arange i n k = [].
Proof.
  intros Hi. unfold Np.arange.
  replace (n - i)%nat with 0%nat by lia.
  destruct k as [|k]; [done|].
  by rewrite Nat.div_small by lia.
Qed.

Lemma arange_cons (i n k : nat) :
  (1 ≤ k)%nat → (i < n)%nat → Np.arange i n k = i :: Np.arange (i + k) n k.
Proof.
  intros Hk Hi. unfold Np.arange.
  rewrite (ceil_div_step n i k) by done.
  rewrite <- cons_seq. simpl. f_equal; [lia|].
  rewrite <- fmap_S_seq, <- list_fmap_compose.
  apply list_fmap_ext. intros _ j _. simpl. lia.
Qed.

Lemma arange_length (start stop step : nat) :
  length (Np.arange start stop step) = ((stop - start + (step - 1)) / step)%nat.
Proof. unfold Np.arange. by rewrite length_map, length_seq. Qed.

(** Every index produced by [np.arange(m, n_time, k)] is a valid index of
    a signal of length [n_time]. *)
Lemma arange_in_range (m n k i : nat) :
  (1 ≤ k)%nat → i ∈ Np.arange m n k → (i < n)%nat.
Proof.
  intros Hk Hin. unfold Np.arange in Hin.
  apply list_elem_of_fmap in Hin as (j & -> & Hj).
  apply elem_of_seq in Hj.
  pose proof (Nat.Div0.mul_div_le (n - m + (k - 1)) k) as Hd.
  nia.
Qed.

(** Offset 0 always reaches two samples when the scale is below the
    signal length. *)
Lemma arange_zero_length (n k : nat) :
  (1 ≤ k)%nat → (k < n)%nat → (2 ≤ length (Np.arange 0 n k))%nat.
Proof.
  intros Hk Hn.
  rewrite (arange_cons 0 n k), (arange_cons (0 + k) n k) by lia.
  simpl. lia.
Qed.

(** The index-array reading of the subsequence is the one of the prose. *)
Lemma take_arange_subsequence (sig : list R) (k : nat) :
  (1 ≤ k)%nat →
  ∀ fuel i, (length sig - i ≤ fuel)%nat →
    Spec.subseq_from fuel sig k i = Np.take sig (Np.arange i (length sig) k).
Proof.
  intros Hk fuel. induction fuel as [|fuel IH]; intros i Hf; simpl.
  - by rewrite arange_nil by lia.
  - destruct (sig !! i) as [v|] eqn:Hv.
    + apply lookup_lt_Some in Hv as Hlt.
      rewrite arange_cons by done. unfold Np.take at 1. simpl.
      rewrite Hv. simpl. f_equal. apply IH. lia.
    + apply lookup_ge_None in Hv. by rewrite arange_nil by lia.
Qed.

Lemma subsequence_take (sig : list R) (m k : nat) :
  (1 ≤ k)%nat →
  Spec.subsequence sig m k = Np.take sig (Np.arange m (length sig) k).
Proof. intros Hk. apply take_arange_subsequence; [done|lia]. Qed.

Lemma take_length (sig : list R) (idx : list nat) :
  length (Np.take sig idx) = length idx.
Proof. unfold Np.take. by rewrite length_map. Qed.

Lemma diff_length (s : list R) : length (Np.diff s) = (length s - 1)%nat.
Proof.
  induction s as [|x [|y t] IH]; [done..|].
  change (Np.diff (x :: y :: t)) with ((y - x)%R :: Np.diff (y :: t)).
  simpl length in *. lia.
Qed.

Lemma abs_diff_sum_eq (s : list R) :
  Np.sum (Np.abs (Np.diff s)) = Spec.abs_diff_sum s.
Proof.
  induction s as [|x [|y t] IH]; [done..|].
  change (Np.diff (x :: y :: t)) with ((y - x)%R :: Np.diff (y :: t)).
  change (Spec.abs_diff_sum (x :: y :: t))
    with (Rabs (y - x) + Spec.abs_diff_sum (y :: t))%R.
  rewrite <- IH. done.
Qed.

Lemma abs_diff_sum_nonneg (s : list R) : (0 <= Spec.abs_diff_sum s)%R.
Proof.
  induction s as [|x [|y t] IH]; [simpl; lra..|].
  change (Spec.abs_diff_sum (x :: y :: t))
    with (Rabs (y - x) + Spec.abs_diff_sum (y :: t))%R.
  pose proof (Rabs_pos (y - x)). lra.
Qed.

(** One iteration of the offset loop, in the vocabulary of the prose. *)
Lemma offset_step_spec (sig : list R) (k : Z) (st : R * nat) (m : nat) :
  (1 ≤ k)%Z →
  Higuchi.offset_step sig (length sig) k st m =
    if decide (Spec.qualifies sig (Z.to_nat k) m)
    then ((st.1 + Spec.L sig (Z.to_nat k) m)%R, S st.2)
    else st.
Proof.
  intros Hk. unfold Higuchi.offset_step.
  pose proof (subsequence_take sig m (Z.to_nat k) ltac:(lia)) as Hsub.
  assert (Spec.qualifies sig (Z.to_nat k) m ↔
          (2 ≤ length (Np.arange m (length sig) (Z.to_nat k)))%nat) as Hiff.
  { unfold Spec.qualifies. by rewrite Hsub, take_length. }
  destruct (decide (2 ≤ length (Np.arange m (length sig) (Z.to_nat k)))%nat)
    as [Hq|Hq];
    destruct (decide (Spec.qualifies sig (Z.to_nat k) m)) as [Hs|Hs];
    try tauto.
  f_equal. f_equal. unfold Spec.L. cbv zeta. rewrite Hsub.
  unfold Np.abs at 2. rewrite length_map.
  rewrite abs_diff_sum_eq, diff_length, take_length.
  rewrite minus_IZR, <- INR_IZR_INZ, mult_IZR, <- INR_IZR_INZ.
  rewrite minus_INR by lia.
  rewrite (INR_IZR_INZ (Z.to_nat k)), Z2Nat.id by lia.
  simpl INR. done.
Qed.

Lemma offset_fold_spec (sig : list R) (k : Z) (ms : list nat) (st : R * nat) :
  (1 ≤ k)%Z →
  let qs := filter (Spec.qualifies sig (Z.to_nat k)) ms in
  foldl (Higuchi.offset_step sig (length sig) k) st ms =
    ((st.1 + Spec.total (map (Spec.L sig (Z.to_nat k)) qs))%R,
     (st.2 + length qs)%nat).
Proof.
  intros Hk. revert st. induction ms as [|m ms IH]; intros [s c]; simpl.
  - f_equal; [lra|lia].
  - rewrite IH, offset_step_spec by done. rewrite filter_cons.
    destruct (decide (Spec.qualifies sig (Z.to_nat k) m)); simpl.
    + f_equal; [lra|lia].
    + done.
Qed.

(** The loop returns the sum of [L(m,k)] over the qualifying offsets and
    their number. *)
Lemma offset_loop_spec (sig : list R) (k : Z) :
  (1 ≤ k)%Z →
  let qs := Spec.qualifying_offsets sig (Z.to_nat k) in
  Higuchi.offset_loop sig (length sig) k =
    (Spec.total (map (Spec.L sig (Z.to_nat k)) qs), length qs).
Proof.
  intros Hk qs. unfold Higuchi.offset_loop.
  rewrite offset_fold_spec by done. simpl.
  fold (Spec.qualifying_offsets sig (Z.to_nat k)). fold qs.
  f_equal. lra.
Qed.

End CurveLength.

(** ** What the estimator can reach once a signal passes the length checks *)

Section Reachability.

Lemma eps_pos : (0 < Higuchi.eps)%R.
Proof.
  unfold Higuchi.eps. apply Rdiv_lt_0_compat; [lra|]. apply pow_lt. lra.
Qed.

Lemma Rdiv_nonneg (a b : R) : (0 <= a)%R → (0 <= b)%R → (0 <= a / b)%R.
Proof.
  intros Ha Hb. destruct (Req_dec b 0) as [->|Hne].
  - unfold Rdiv. rewrite Rinv_0. lra.
  - apply Rmult_le_pos; [done|]. left. apply Rinv_0_lt_compat. lra.
Qed.

Lemma sum_nonneg (l : list R) : Forall (λ v, 0 <= v)%R l → (0 <= Np.sum l)%R.
Proof. induction 1 as [|v l Hv _ IH]; simpl; lra. Qed.

Lemma epsilon_eq : Spec.epsilon = Higuchi.eps.
Proof. unfold Spec.epsilon, Higuchi.eps. lra. Qed.

Lemma total_sum (l : list R) : Spec.total l = Np.sum l.
Proof. induction l as [|x l IH]; simpl; [done|by rewrite IH]. Qed.

(** [sig - sig.mean()] is the centred signal of the prose. *)
Lemma center_centred (sig : list R) : Higuchi.center sig = Spec.centred sig.
Proof.
  unfold Higuchi.center, Spec.centred, Np.mean. by rewrite (total_sum sig).
Qed.

(** A scale of at most [n // 2] is below the signal length. *)
Lemma half_below_length (n : nat) (k : Z) :
  (1 ≤ k ≤ Z.of_nat (n / 2))%Z → (Z.to_nat k < n)%nat.
Proof.
  intros [Hk Hhalf].
  assert (1 ≤ n / 2)%nat as H1 by lia.
  assert (n / 2 < n)%nat.
  { apply Nat.div_lt; [|lia]. destruct n; [simpl in H1|]; lia. }
  lia.
Qed.

Lemma offset_zero_qualifies (sig : list R) (k : nat) :
  (1 ≤ k)%nat → (k < length sig)%nat → Spec.qualifies sig k 0.
Proof.
  intros Hk Hn. unfold Spec.qualifies.
  rewrite subsequence_take, take_length by done.
  by apply arange_zero_length.
Qed.

Lemma qualifying_offsets_nonempty (sig : list R) (k : nat) :
  (1 ≤ k)%nat → (k < length sig)%nat → Spec.qualifying_offsets sig k ≠ [].
Proof.
  intros Hk Hn Hnil.
  assert (0%nat ∈ Spec.qualifying_offsets sig k) as Hin.
  { apply list_elem_of_filter. split; [by apply offset_zero_qualifies|].
    apply elem_of_seq. lia. }
  rewrite Hnil in Hin. by apply elem_of_nil in Hin.
Qed.

Lemma subsequence_nil (k m : nat) : Spec.subsequence [] m k = [].
Proof. done. Qed.

Lemma L_nonneg (sig : list R) (k m : nat) : (0 <= Spec.L sig k m)%R.
Proof.
  unfold Spec.L. cbv zeta.
  destruct (Spec.subsequence sig m k) as [|v s] eqn:Hs.
  { simpl. unfold Rdiv. rewrite !Rmult_0_l. lra. }
  destruct sig as [|w sig]; [by rewrite subsequence_nil in Hs|].
  apply Rdiv_nonneg.
  - apply Rmult_le_pos; [apply abs_diff_sum_nonneg|].
    pose proof (pos_INR (length sig)). rewrite length_cons, S_INR. lra.
  - apply Rmult_le_pos; [|apply pos_INR].
    pose proof (pos_INR (length s)). rewrite length_cons, S_INR. lra.
Qed.

Lemma spec_Lk_nonneg (sig : list R) (k : nat) : (0 <= Spec.Lk sig k)%R.
Proof.
  unfold Spec.Lk. cbv zeta.
  destruct (Spec.qualifying_offsets sig k) as [|m qs]; [lra|].
  apply Rdiv_nonneg; [|apply pos_INR].
  rewrite total_sum. apply sum_nonneg, Forall_forall. intros v Hv.
  apply list_elem_of_fmap in Hv as (m' & -> & _). apply L_nonneg.
Qed.

(** The quotient [sum_l / count] of the loop is the mean of the prose. *)
Lemma Lk_refines (sig : list R) (k : Z) :
  (1 ≤ k)%Z → Spec.qualifying_offsets sig (Z.to_nat k) ≠ [] →
  Higuchi.Lk sig (length sig) k = Spec.Lk sig (Z.to_nat k).
Proof.
  intros Hk Hne. unfold Higuchi.Lk, Spec.Lk. cbv zeta.
  rewrite offset_loop_spec by done. simpl.
  by destruct (Spec.qualifying_offsets sig (Z.to_nat k)).
Qed.

Lemma log_pos (x : R) : (0 < x)%R → Np.log x = Finite (ln x).
Proof. intros Hx. unfold Np.log. by destruct (Rlt_dec 0 x). Qed.

(** The stored ordinate is the logarithm of the mean plus [eps], and it
    is finite. *)
Lemma lk_entry_finite (sig : list R) (k : Z) :
  (1 ≤ k)%Z → (Z.to_nat k < length sig)%nat →
  Higuchi.lk_entry sig (length sig) k =
    Finite (ln (Spec.Lk sig (Z.to_nat k) + Higuchi.eps)).
Proof.
  intros Hk Hn.
  pose proof (qualifying_offsets_nonempty sig (Z.to_nat k) ltac:(lia) Hn) as Hne.
  unfold Higuchi.lk_entry.
  rewrite Lk_refines by done.
  rewrite offset_loop_spec by done. simpl.
  destruct (decide (length (Spec.qualifying_offsets sig (Z.to_nat k)) = 0%nat))
    as [Hz|_].
  { by apply length_zero_iff_nil in Hz. }
  apply log_pos.
  pose proof (spec_Lk_nonneg sig (Z.to_nat k)). pose proof eps_pos. lra.
Qed.

End Reachability.

(** C1.  For a signal of length [N >= 10] (the centred signal in
    particular) and every scale [k] from 1 to [N // 2], which is where the
    scale set lies, the offset loop returns the sum of [L(m,k)] over exactly
    the offsets [m] of [[0, k)] whose subsequence has at least 2 samples,
    together with their number; the other offsets add nothing.  Some offset
    qualifies, the quotient [Lk] is the arithmetic mean of [L(m,k)] over
    the qualifying offsets (0 were there none), and the stored ordinate is
    the logarithm of [Lk + 1e-12]. *)
Theorem curve_length_is_mean_over_qualifying_offsets (sig : list R) (k : Z) :
  let n := length sig in
  (10 ≤ n)%nat → (1 ≤ k ≤ Z.of_nat (n / 2))%Z →
  let qs := Spec.qualifying_offsets sig (Z.to_nat k) in
  Higuchi.offset_loop sig n k =
    (Spec.total (map (Spec.L sig (Z.to_nat k)) qs), length qs) ∧
  qs ≠ [] ∧
  Higuchi.Lk sig n k = Spec.Lk sig (Z.to_nat k) ∧
  Higuchi.lk_entry sig n k =
    Finite (ln (Spec.Lk sig (Z.to_nat k) + Spec.epsilon)).
Proof.
  intros n Hn Hk qs.
  pose proof (half_below_length n k Hk) as Hlt.
  assert (qs ≠ []) as Hne
    by (apply qualifying_offsets_nonempty; [lia|done]).
  split; [apply offset_loop_spec; lia|].
  split; [done|].
  split; [apply Lk_refines; [lia|done]|].
  unfold n. rewrite epsilon_eq. apply lk_entry_finite; [lia|done].
Qed.

Lemma curve_length_is_mean_over_qualifying_offsets_witness :
  let sig := [0; 1; 0; 1; 0; 1; 0; 1; 0; 3]%R in
  (10 ≤ length sig)%nat ∧
  (1 ≤ 2 ≤ Z.of_nat (length sig / 2))%Z ∧
  Higuchi.Lk sig (length sig) 2 = Spec.Lk sig 2.
Proof.
  intros sig.
  assert (10 ≤ length sig)%nat as H1 by (simpl; lia).
  assert (1 ≤ 2 ≤ Z.of_nat (length sig / 2))%Z as H2 by
    (vm_compute; split; discriminate).
  split; [exact H1|]. split; [exact H2|].
  exact (proj1 (proj2 (proj2
    (curve_length_is_mean_over_qualifying_offsets sig 2 H1 H2)))).
Defined.

(** ** The validity mask *)

Section ValidMask.

Lemma valid_mask_finite (lk : list npfloat) :
  Forall (λ v, ∃ r, v = Finite r) lk →
  Higuchi.valid_mask lk = replicate (length lk) true.
Proof.
  induction 1 as [|v lk [r ->] _ IH]; [done|].
  unfold Higuchi.valid_mask in *. simpl. by rewrite IH.
Qed.

Lemma valid_mask_nan (n : nat) :
  Higuchi.valid_mask (replicate n NaN) = replicate n false.
Proof.
  unfold Higuchi.valid_mask. induction n as [|n IH]; simpl; [done|by rewrite IH].
Qed.

Lemma count_nonzero_replicate (n : nat) :
  Np.count_nonzero (replicate n true) = n.
Proof.
  unfold Np.count_nonzero. induction n as [|n IH]; simpl; [done|by rewrite IH].
Qed.

Lemma count_nonzero_none (n : nat) :
  Np.count_nonzero (replicate n false) = 0%nat.
Proof. unfold Np.count_nonzero. induction n as [|n IH]; simpl; done. Qed.

Lemma compress_replicate {A} (l : list A) :
  Np.compress (replicate (length l) true) l = l.
Proof. induction l as [|x l IH]; simpl; [done|by rewrite IH]. Qed.

(** On a real-valued signal every ordinate of a scale from 1 to [N // 2]
    is finite. *)
Lemma lk_entries_finite (scales : list Z) (sig : list R) :
  Forall (λ k, 1 ≤ k ≤ Z.of_nat (length sig / 2))%Z scales →
  map (Higuchi.lk_entry sig (length sig)) scales =
  map (λ k, Finite (ln (Spec.Lk sig (Z.to_nat k) + Higuchi.eps))) scales.
Proof.
  intros Hall. apply list_fmap_ext. intros i k Hk.
  apply list_elem_of_lookup_2 in Hk.
  eapply Forall_forall in Hall; [|exact Hk].
  apply lk_entry_finite; [lia|by apply half_below_length].
Qed.

End ValidMask.

(** ** Infinite and NaN samples *)

Section Special.

Lemma ieee_sum_finite (s : list R) :
  Ieee.sum (map Finite s) = Finite (Np.sum s).
Proof.
  unfold Ieee.sum, Np.sum. induction s as [|x s IH]; simpl; [done|].
  by rewrite IH.
Qed.

Lemma ieee_take_finite (s : list R) (idx : list nat) :
  Ieee.take (map Finite s) idx = map Finite (Np.take s idx).
Proof.
  unfold Ieee.take, Np.take. rewrite <- list_fmap_compose.
  apply list_fmap_ext. intros _ i _. simpl.
  rewrite list_lookup_fmap. by destruct (s !! i).
Qed.

Lemma ieee_diff_finite (s : list R) :
  Ieee.diff (map Finite s) = map Finite (Np.diff s).
Proof.
  induction s as [|x [|y t] IH]; [done..|].
  change (Ieee.diff (map Finite (x :: y :: t)))
    with (Ieee.sub (Finite y) (Finite x) :: Ieee.diff (map Finite (y :: t))).
  rewrite IH. done.
Qed.

Lemma ieee_abs_finite (s : list R) :
  map Ieee.abs (map Finite s) = map Finite (Np.abs s).
Proof. unfold Np.abs. by rewrite <- !list_fmap_compose. Qed.

Lemma ieee_div_finite (x y : R) :
  y ≠ 0%R → Ieee.div (Finite x) (Finite y) = Finite (x / y).
Proof. intros Hy. simpl. by destruct (Req_dec_T y 0). Qed.

(** On finite samples the extended loop is the loop over the reals. *)
Lemma ieee_offset_step_finite (s : list R) (n : nat) (k : Z) (x : R) (c m : nat) :
  (1 ≤ k)%Z →
  Ieee.offset_step (map Finite s) n k (Finite x, c) m =
    (Finite (Higuchi.offset_step s n k (x, c) m).1,
     (Higuchi.offset_step s n k (x, c) m).2).
Proof.
  intros Hk. unfold Ieee.offset_step, Higuchi.offset_step.
  destruct (decide (2 ≤ length (Np.arange m n (Z.to_nat k)))%nat) as [Hq|Hq];
    [|done].
  cbv zeta. rewrite ieee_take_finite, ieee_diff_finite, ieee_abs_finite.
  rewrite ieee_sum_finite, !length_map. simpl Ieee.mul.
  rewrite ieee_div_finite; [done|].
  unfold Np.abs. rewrite length_map, diff_length, take_length.
  apply not_0_IZR. nia.
Qed.

Lemma ieee_offset_fold_finite (s : list R) (n : nat) (k : Z) (ms : list nat)
    (x : R) (c : nat) :
  (1 ≤ k)%Z →
  foldl (Ieee.offset_step (map Finite s) n k) (Finite x, c) ms =
    (Finite (foldl (Higuchi.offset_step s n k) (x, c) ms).1,
     (foldl (Higuchi.offset_step s n k) (x, c) ms).2).
Proof.
  intros Hk. revert x c. induction ms as [|m ms IH]; intros x c; [done|].
  simpl. rewrite ieee_offset_step_finite by done.
  destruct (Higuchi.offset_step s n k (x, c) m) as [x' c']. apply IH.
Qed.

Lemma ieee_offset_loop_finite (s : list R) (n : nat) (k : Z) :
  (1 ≤ k)%Z →
  Ieee.offset_loop (map Finite s) n k =
    (Finite (Higuchi.offset_loop s n k).1, (Higuchi.offset_loop s n k).2).
Proof. intros Hk. by apply ieee_offset_fold_finite. Qed.

Lemma ieee_Lk_finite (s : list R) (n : nat) (k : Z) :
  (1 ≤ k)%Z → (Higuchi.offset_loop s n k).2 ≠ 0%nat →
  Ieee.Lk (map Finite s) n k = Finite (Higuchi.Lk s n k).
Proof.
  intros Hk Hc. unfold Ieee.Lk, Higuchi.Lk. cbv zeta.
  rewrite ieee_offset_loop_finite by done. cbn [fst snd].
  apply ieee_div_finite. by apply not_0_INR.
Qed.

Lemma ieee_lk_entry_finite (s : list R) (n : nat) (k : Z) :
  (1 ≤ k)%Z →
  Ieee.lk_entry (map Finite s) n k = Higuchi.lk_entry s n k.
Proof.
  intros Hk. unfold Ieee.lk_entry, Higuchi.lk_entry.
  rewrite ieee_offset_loop_finite by done. cbn [fst snd].
  destruct (decide ((Higuchi.offset_loop s n k).2 = 0%nat)) as [|Hc]; [done|].
  rewrite ieee_Lk_finite by done. done.
Qed.

Lemma ieee_center_finite (s : list R) :
  Ieee.center (map Finite s) = map Finite (Higuchi.center s).
Proof.
  unfold Ieee.center, Higuchi.center. rewrite <- !list_fmap_compose.
  apply list_fmap_ext. intros i v Hv. simpl.
  unfold Ieee.mean, Np.mean. rewrite ieee_sum_finite, length_map.
  rewrite ieee_div_finite.
  - done.
  - apply not_0_INR. apply lookup_lt_Some in Hv. lia.
Qed.

Lemma ieee_hfd_signal_finite (polyfit : list R → list R → R)
    (scales : list Z) (n : nat) (s : list R) :
  Forall (λ k, 1 ≤ k)%Z scales →
  Ieee.hfd_signal polyfit scales n (map Finite s) =
    Higuchi.hfd_signal polyfit scales n s.
Proof.
  intros Hall. unfold Ieee.hfd_signal, Higuchi.hfd_signal. cbv zeta.
  rewrite ieee_center_finite. f_equal.
  apply list_fmap_ext. intros i k Hk.
  apply list_elem_of_lookup_2 in Hk.
  eapply Forall_forall in Hall; [|exact Hk].
  by apply ieee_lk_entry_finite.
Qed.

(** The number of qualifying offsets does not depend on the samples. *)
Lemma ieee_offset_fold_count (sig : list npfloat) (n : nat) (k : Z)
    (ms : list nat) (st : npfloat * nat) :
  (foldl (Ieee.offset_step sig n k) st ms).2 =
    (st.2 + length (filter (λ m, 2 ≤ length (Np.arange m n (Z.to_nat k)))%nat
      ms))%nat.
Proof.
  revert st. induction ms as [|m ms IH]; intros st; simpl; [lia|].
  rewrite IH, filter_cons. unfold Ieee.offset_step.
  destruct (decide (2 ≤ length (Np.arange m n (Z.to_nat k)))%nat); simpl; lia.
Qed.

Lemma ieee_offset_count (sig : list npfloat) (n : nat) (k : Z) :
  (1 ≤ k)%Z → (Z.to_nat k < n)%nat → (Ieee.offset_loop sig n k).2 ≠ 0%nat.
Proof.
  intros Hk Hn. unfold Ieee.offset_loop. rewrite ieee_offset_fold_count.
  destruct (Z.to_nat k) as [|k'] eqn:Hk'; [lia|].
  rewrite <- cons_seq, filter_cons_True by (apply arange_zero_length; lia).
  simpl. lia.
Qed.

(** A NaN sample makes the mean NaN, hence every centred sample. *)
Lemma ieee_add_nan_r (a : npfloat) : Ieee.add a NaN = NaN.
Proof. by destruct a. Qed.

Lemma ieee_sum_nan (sig : list npfloat) : NaN ∈ sig → Ieee.sum sig = NaN.
Proof.
  unfold Ieee.sum. induction sig as [|v sig IH]; intros Hin.
  - by apply elem_of_nil in Hin.
  - apply elem_of_cons in Hin as [<-|Hin]; simpl; [done|].
    rewrite IH by done. apply ieee_add_nan_r.
Qed.

Lemma ieee_center_nan (sig : list npfloat) :
  NaN ∈ sig → Ieee.center sig = replicate (length sig) NaN.
Proof.
  intros Hin. unfold Ieee.center, Ieee.mean. rewrite ieee_sum_nan by done.
  simpl Ieee.div. unfold Ieee.sub. simpl Ieee.opp.
  induction sig as [|v sig IH]; [done|].
  simpl. rewrite ieee_add_nan_r. f_equal.
  clear. induction sig as [|w sig IH]; [done|].
  simpl. by rewrite ieee_add_nan_r, IH.
Qed.

Lemma ieee_take_nan (n : nat) (idx : list nat) :
  Forall (λ i, i < n)%nat idx →
  Ieee.take (replicate n NaN) idx = replicate (length idx) NaN.
Proof.
  unfold Ieee.take. induction 1 as [|i idx Hi _ IH]; [done|].
  simpl. rewrite IH. by rewrite lookup_replicate_2.
Qed.

Lemma ieee_diff_nan (n : nat) :
  Ieee.diff (replicate n NaN) = replicate (n - 1) NaN.
Proof.
  induction n as [|[|n] IH]; [done..|].
  change (Ieee.diff (replicate (S (S n)) NaN))
    with (Ieee.sub NaN NaN :: Ieee.diff (replicate (S n) NaN)).
  rewrite IH. simpl. by rewrite Nat.sub_0_r.
Qed.

Lemma ieee_abs_sum_nan (n : nat) :
  (1 ≤ n)%nat → Ieee.sum (map Ieee.abs (replicate n NaN)) = NaN.
Proof. destruct n; [lia|done]. Qed.

(** On a signal of NaNs every qualifying offset turns the running sum
    into NaN. *)
Lemma ieee_offset_step_nan (n : nat) (k : Z) (st : npfloat * nat) (m : nat) :
  (1 ≤ k)%Z →
  Ieee.offset_step (replicate n NaN) n k st m =
    if decide (2 ≤ length (Np.arange m n (Z.to_nat k)))%nat
    then (NaN, S st.2) else st.
Proof.
  intros Hk. unfold Ieee.offset_step.
  destruct (decide (2 ≤ length (Np.arange m n (Z.to_nat k)))%nat) as [Hq|Hq];
    [|done].
  cbv zeta. rewrite ieee_take_nan.
  2:{ apply Forall_forall. intros i Hi. eapply arange_in_range; [|exact Hi]. lia. }
  rewrite ieee_diff_nan, ieee_abs_sum_nan by lia.
  simpl Ieee.mul. simpl Ieee.div. by rewrite ieee_add_nan_r.
Qed.

Lemma ieee_offset_fold_nan (n : nat) (k : Z) (ms : list nat)
    (st : npfloat * nat) :
  (1 ≤ k)%Z →
  let st' := foldl (Ieee.offset_step (replicate n NaN) n k) st ms in
  (st'.2 = st.2 ∧ st'.1 = st.1) ∨ ((st'.2 ≠ 0)%nat ∧ st'.1 = NaN).
Proof.
  intros Hk. revert st. induction ms as [|m ms IH]; intros st; simpl.
  { by left. }
  rewrite ieee_offset_step_nan by done.
  destruct (decide (2 ≤ length (Np.arange m n (Z.to_nat k)))%nat) as [Hq|Hq];
    [|apply IH].
  right. destruct (IH (NaN, S st.2)) as [[H2 H1]|[H2 H1]]; (split; [|done]).
  - rewrite H2. simpl. lia.
  - done.
Qed.

Lemma ieee_lk_entry_nan (n : nat) (k : Z) :
  (1 ≤ k)%Z → (Ieee.offset_loop (replicate n NaN) n k).2 ≠ 0%nat →
  Ieee.lk_entry (replicate n NaN) n k = NaN.
Proof.
  intros Hk Hc. unfold Ieee.lk_entry.
  destruct (decide ((Ieee.offset_loop (replicate n NaN) n k).2 = 0%nat));
    [done|].
  unfold Ieee.Lk. cbv zeta.
  destruct (ieee_offset_fold_nan n k (seq 0 (Z.to_nat k)) (Finite 0, 0%nat) Hk)
    as [[H2 _]|[_ H1]].
  - unfold Ieee.offset_loop in Hc. by rewrite H2 in Hc.
  - unfold Ieee.offset_loop. by rewrite H1.
Qed.

Lemma ieee_lk_entries_nan (scales : list Z) (sig : list npfloat) :
  NaN ∈ sig →
  Forall (λ k, 1 ≤ k ≤ Z.of_nat (length sig / 2))%Z scales →
  map (Ieee.lk_entry (Ieee.center sig) (length sig)) scales =
    replicate (length scales) NaN.
Proof.
  intros Hin Hall. rewrite ieee_center_nan by done.
  induction Hall as [|k scales Hk _ IH]; [done|].
  simpl. rewrite IH. f_equal.
  apply ieee_lk_entry_nan; [lia|].
  apply ieee_offset_count; [lia|by apply half_below_length].
Qed.

Lemma ieee_hfd_signal_nan (polyfit : list R → list R → R) (scales : list Z)
    (sig : list npfloat) :
  NaN ∈ sig →
  Forall (λ k, 1 ≤ k ≤ Z.of_nat (length sig / 2))%Z scales →
  Ieee.hfd_signal polyfit scales (length sig) sig = 0%R.
Proof.
  intros Hin Hall. unfold Ieee.hfd_signal, Higuchi.fit_slope. cbv zeta.
  rewrite ieee_lk_entries_nan, valid_mask_nan, count_nonzero_none by done.
  by rewrite decide_True by lia.
Qed.

(** On rows of finite samples the batch loop is the one over the reals. *)
Lemma ieee_hfd_vals_finite (logspace : Z → list R)
    (polyfit : list R → list R → R) (kmax : Z) (n : nat)
    (X_flat : list (list R)) :
  Ieee.hfd_vals logspace polyfit kmax n (map (map Finite) X_flat) =
    Higuchi.hfd_vals logspace polyfit kmax n X_flat.
Proof.
  unfold Ieee.hfd_vals, Higuchi.hfd_vals. rewrite length_map.
  repeat case_decide; try done. cbv zeta.
  rewrite <- list_fmap_compose. apply list_fmap_ext. intros i sig _. simpl.
  apply ieee_hfd_signal_finite, Forall_forall.
  by intros k [Hk _]%scales_of_elem.
Qed.

End Special.

(** ** The log-log regressor *)

Section Regression.
Local Open Scope R_scope.

Implicit Types (pts : list (R * R)) (p : R * R).

Local Abbreviation sum_over f pts := (Spec.total (map f pts)).

Lemma sum_over_residual pts a b :
  sum_over (λ p, p.2 - (a * p.1 + b)) pts =
  sum_over snd pts - a * sum_over fst pts - INR (length pts) * b.
Proof.
  induction pts as [|p pts IH]; [simpl; lra|].
  change (length (p :: pts)) with (S (length pts)). rewrite S_INR.
  simpl Spec.total in *. rewrite IH. lra.
Qed.

Lemma sum_over_residual_x pts a b :
  sum_over (λ p, (p.2 - (a * p.1 + b)) * p.1) pts =
  sum_over (λ p, p.1 * p.2) pts - a * sum_over (λ p, p.1 * p.1) pts
    - b * sum_over fst pts.
Proof.
  induction pts as [|p pts IH]; [simpl; lra|].
  simpl Spec.total in *. rewrite IH. lra.
Qed.

Lemma sum_over_sq_dev pts c :
  sum_over (λ p, (p.1 - c) ^ 2) pts =
  sum_over (λ p, p.1 * p.1) pts - 2 * c * sum_over fst pts
    + INR (length pts) * c ^ 2.
Proof.
  induction pts as [|p pts IH]; [simpl; lra|].
  change (length (p :: pts)) with (S (length pts)). rewrite S_INR.
  simpl Spec.total in *. rewrite IH. lra.
Qed.

(** The squared residuals of any line split into those of a reference
    line, the squared distance between the two lines, and two terms that
    the normal equations cancel. *)
Lemma sse_decompose pts a b a' b' :
  Spec.sse pts a b =
  Spec.sse pts a' b'
  + sum_over (λ p, ((a - a') * p.1 + (b - b')) ^ 2) pts
  - 2 * (a - a') * sum_over (λ p, (p.2 - (a' * p.1 + b')) * p.1) pts
  - 2 * (b - b') * sum_over (λ p, p.2 - (a' * p.1 + b')) pts.
Proof.
  unfold Spec.sse. induction pts as [|p pts IH]; [simpl; lra|].
  simpl Spec.total in *. rewrite IH. lra.
Qed.

Lemma sum_over_sq_nonneg (f : R * R → R) pts : 0 <= sum_over (λ p, f p ^ 2) pts.
Proof.
  induction pts as [|p pts IH]; [simpl; lra|].
  change (sum_over (λ p, f p ^ 2) (p :: pts))
    with (f p ^ 2 + sum_over (λ p, f p ^ 2) pts).
  pose proof (pow2_ge_0 (f p)). lra.
Qed.

Lemma sum_over_sq_zero (f : R * R → R) pts :
  sum_over (λ p, f p ^ 2) pts = 0 → ∀ p, p ∈ pts → f p = 0.
Proof.
  induction pts as [|q pts IH]; intros Hz p Hp.
  { by apply elem_of_nil in Hp. }
  change (sum_over (λ p, f p ^ 2) (q :: pts))
    with (f q ^ 2 + sum_over (λ p, f p ^ 2) pts) in Hz.
  pose proof (pow2_ge_0 (f q)). pose proof (sum_over_sq_nonneg f pts).
  apply elem_of_cons in Hp as [->|Hp].
  - assert (f q ^ 2 = 0) as Hq by lra.
    destruct (Req_dec (f q) 0) as [|Hne]; [done|].
    apply (pow_nonzero _ 2) in Hne. done.
  - apply IH; [lra|done].
Qed.

Lemma zip_with_fst_fst pts :
  zip_with Rmult (map fst pts) (map fst pts) = map (λ p, p.1 * p.1) pts.
Proof. induction pts as [|p pts IH]; simpl; [done|by rewrite IH]. Qed.

Lemma zip_with_fst_snd pts :
  zip_with Rmult (map fst pts) (map snd pts) = map (λ p, p.1 * p.2) pts.
Proof. induction pts as [|p pts IH]; simpl; [done|by rewrite IH]. Qed.

(** With two different abscissas the determinant of the normal equations
    does not vanish. *)
Lemma normal_det_nonzero pts p q :
  p ∈ pts → q ∈ pts → p.1 ≠ q.1 →
  INR (length pts) * sum_over (λ p, p.1 * p.1) pts
    - sum_over fst pts * sum_over fst pts ≠ 0.
Proof.
  intros Hp Hq Hne Hdet.
  assert (0 < INR (length pts)) as Hn.
  { apply lt_0_INR. destruct pts; [by apply elem_of_nil in Hp|simpl; lia]. }
  set (c := sum_over fst pts / INR (length pts)).
  assert (sum_over (λ p, (p.1 - c) ^ 2) pts = 0) as Hdev.
  { rewrite sum_over_sq_dev. unfold c.
    apply (Rmult_eq_reg_l (INR (length pts))); [|lra].
    field_simplify; [|lra]. lra. }
  pose proof (sum_over_sq_zero (λ p, p.1 - c) pts Hdev) as Hall.
  pose proof (Hall p Hp). pose proof (Hall q Hq). simpl in *. lra.
Qed.

(** The coefficients of [Np.polyfit1] solve the normal equations. *)
Lemma polyfit1_normal pts p q :
  p ∈ pts → q ∈ pts → p.1 ≠ q.1 →
  let fit := Np.polyfit1 (map fst pts) (map snd pts) in
  sum_over (λ p, p.2 - (fit.1 * p.1 + fit.2)) pts = 0 ∧
  sum_over (λ p, (p.2 - (fit.1 * p.1 + fit.2)) * p.1) pts = 0.
Proof.
  intros Hp Hq Hne fit.
  pose proof (normal_det_nonzero pts p q Hp Hq Hne) as Hdet.
  assert (0 < INR (length pts)) as Hn.
  { apply lt_0_INR. destruct pts; [by apply elem_of_nil in Hp|simpl; lia]. }
  rewrite sum_over_residual, sum_over_residual_x.
  unfold fit, Np.polyfit1. cbv zeta. simpl fst. simpl snd.
  rewrite zip_with_fst_fst, zip_with_fst_snd, length_map.
  repeat match goal with
  | |- context [Spec.total (map ?f pts)] => rewrite (total_sum (map f pts))
  | H : context [Spec.total (map ?f pts)] |- _ =>
      rewrite (total_sum (map f pts)) in H
  end.
  split; field; lra.
Qed.

(** The line of [Np.polyfit1] minimises the squared residuals, and no
    line of another slope does. *)
Lemma polyfit1_ols pts p q :
  p ∈ pts → q ∈ pts → p.1 ≠ q.1 →
  Spec.ols_slope pts (Np.polyfit1 (map fst pts) (map snd pts)).1.
Proof.
  intros Hp Hq Hne.
  destruct (polyfit1_normal pts p q Hp Hq Hne) as [Hr Hrx].
  set (fit := Np.polyfit1 (map fst pts) (map snd pts)) in *.
  cbv zeta in Hr, Hrx.
  assert (∀ a b, Spec.sse pts a b = Spec.sse pts fit.1 fit.2
            + sum_over (λ p, ((a - fit.1) * p.1 + (b - fit.2)) ^ 2) pts) as Hdec.
  { intros a b. rewrite (sse_decompose pts a b fit.1 fit.2), Hr, Hrx. lra. }
  split.
  - exists fit.2. intros a b. rewrite (Hdec a b).
    pose proof (sum_over_sq_nonneg (λ p, (a - fit.1) * p.1 + (b - fit.2)) pts).
    lra.
  - intros a b Hmin.
    specialize (Hmin fit.1 fit.2). rewrite (Hdec a b) in Hmin.
    pose proof (sum_over_sq_nonneg (λ p, (a - fit.1) * p.1 + (b - fit.2)) pts)
      as Hnn.
    assert (sum_over (λ p, ((a - fit.1) * p.1 + (b - fit.2)) ^ 2) pts = 0)
      as Hz by lra.
    pose proof (sum_over_sq_zero (λ p, (a - fit.1) * p.1 + (b - fit.2)) pts Hz)
      as Hall.
    pose proof (Hall p Hp) as Hp0. pose proof (Hall q Hq) as Hq0.
    cbv beta in Hp0, Hq0.
    assert ((a - fit.1) * (p.1 - q.1) = 0) as Hprod.
    { transitivity (((a - fit.1) * p.1 + (b - fit.2))
                    - ((a - fit.1) * q.1 + (b - fit.2))); [ring|].
      rewrite Hp0, Hq0. ring. }
    apply Rmult_integral in Hprod as [?|?]; lra.
Qed.

Lemma sse_nonneg pts a b : 0 <= Spec.sse pts a b.
Proof. apply (sum_over_sq_nonneg (λ p, p.2 - (a * p.1 + b))). Qed.

Lemma sse_flat pts y0 : (∀ p, p ∈ pts → p.2 = y0) → Spec.sse pts 0 y0 = 0.
Proof.
  induction pts as [|p pts IH]; intros Hc; [done|].
  change (Spec.sse (p :: pts) 0 y0)
    with ((p.2 - (0 * p.1 + y0)) ^ 2 + Spec.sse pts 0 y0).
  rewrite IH by (intros q Hq; apply Hc; by right).
  rewrite (Hc p) by (by left). ring.
Qed.

(** The least-squares line through points of equal ordinate is flat. *)
Lemma ols_slope_flat pts y0 slope :
  (∀ p, p ∈ pts → p.2 = y0) → Spec.ols_slope pts slope → slope = 0.
Proof.
  intros Hc [_ Huniq]. symmetry. apply (Huniq 0 y0).
  intros a' b'. rewrite sse_flat by done. apply sse_nonneg.
Qed.

Lemma polyfit_ideal_least_squares : Spec.least_squares Np.polyfit_ideal.
Proof. intros pts p q Hp Hq Hne. by apply (polyfit1_ols pts p q). Qed.

End Regression.

(** ** From the masked arrays to the regression points *)

Section RegressionPoints.

Variable polyfit : list R → list R → R.

Lemma log_inv_scale (k : Z) :
  (1 ≤ k)%Z → Np.log (1 / IZR k) = Finite (ln (1 / IZR k)).
Proof.
  intros Hk. apply log_pos.
  apply Rdiv_lt_0_compat; [lra|]. apply IZR_lt. lia.
Qed.

Lemma ln_inv_scale_inj (k k' : Z) :
  (1 ≤ k)%Z → (1 ≤ k')%Z → ln (1 / IZR k) = ln (1 / IZR k') → k = k'.
Proof.
  intros Hk Hk' Hln.
  assert (0 < IZR k)%R by (apply IZR_lt; lia).
  assert (0 < IZR k')%R by (apply IZR_lt; lia).
  apply ln_inv in Hln; [|by apply Rdiv_lt_0_compat; lra..].
  apply eq_IZR.
  assert (1 / IZR k * (IZR k * IZR k') = 1 / IZR k' * (IZR k * IZR k'))%R as He
    by (by rewrite Hln).
  field_simplify in He; lra.
Qed.

Lemma points_cons (k : Z) (y : npfloat) (scales : list Z) (lk : list npfloat) :
  Spec.points (k :: scales) (y :: lk) =
    match y with
    | Finite r => (ln (1 / IZR k), r) :: Spec.points scales lk
    | _ => Spec.points scales lk
    end.
Proof. unfold Spec.points. simpl. by destruct y. Qed.

(** The two arrays handed to [np.polyfit] are the coordinates of the
    points that survive the filter. *)
Lemma points_coordinates (scales : list Z) (lk : list npfloat) :
  length lk = length scales → Forall (λ k, 1 ≤ k)%Z scales →
  let valid := Higuchi.valid_mask lk in
  map fst (Spec.points scales lk) =
    map (λ k, Np.to_real (Np.log (1 / IZR k))) (Np.compress valid scales) ∧
  map snd (Spec.points scales lk) = map Np.to_real (Np.compress valid lk) ∧
  length (Spec.points scales lk) = Np.count_nonzero valid.
Proof.
  intros Hlen Hall. revert lk Hlen.
  induction Hall as [|k scales Hk _ IH]; intros [|y lk] Hlen; try done.
  simpl in Hlen. destruct (IH lk ltac:(lia)) as (IH1 & IH2 & IH3).
  cbv zeta in *. rewrite points_cons.
  unfold Higuchi.valid_mask in *. unfold Np.count_nonzero in *.
  destruct y as [r| | |]; simpl; rewrite ?IH1, ?IH2, ?IH3; try done.
  by rewrite log_inv_scale.
Qed.

Lemma points_abscissa (scales : list Z) (lk : list npfloat) (p : R * R) :
  p ∈ Spec.points scales lk → ∃ k, k ∈ scales ∧ p.1 = ln (1 / IZR k).
Proof.
  revert lk. induction scales as [|k scales IH]; intros [|y lk] Hp;
    try by apply elem_of_nil in Hp.
  rewrite points_cons in Hp.
  assert (p ∈ Spec.points scales lk → ∃ k0, k0 ∈ k :: scales ∧
            p.1 = ln (1 / IZR k0)) as Htail.
  { intros (k0 & Hk0 & ->)%IH. exists k0. split; [by right|done]. }
  destruct y; [|by auto..].
  apply elem_of_cons in Hp as [->|Hp]; [|by auto].
  exists k. split; [by left|done].
Qed.

(** The abscissas of the regression points are pairwise distinct, because
    the scales are. *)
Lemma regression_abscissas_distinct (scales : list Z) (lk : list npfloat) :
  NoDup scales → Forall (λ k, 1 ≤ k)%Z scales →
  NoDup (map fst (Spec.points scales lk)).
Proof.
  intros Hnd. revert lk.
  induction Hnd as [|k scales Hnotin _ IH]; intros lk Hall.
  { destruct lk; constructor. }
  destruct lk as [|y lk]; [constructor|].
  apply Forall_cons in Hall as [Hk Hall].
  rewrite points_cons.
  destruct y; [|by auto..].
  simpl. constructor; [|by auto].
  intros Hin.
  apply list_elem_of_fmap in Hin as (p & Hx & Hp).
  apply points_abscissa in Hp as (k' & Hk' & Hp). simpl in Hx.
  rewrite Hp in Hx.
  apply ln_inv_scale_inj in Hx; [by subst| done |].
  by eapply Forall_forall in Hall.
Qed.

Lemma two_distinct_abscissas (pts : list (R * R)) :
  (2 ≤ length pts)%nat → NoDup (map fst pts) →
  ∃ p q, p ∈ pts ∧ q ∈ pts ∧ p.1 ≠ q.1.
Proof.
  destruct pts as [|p [|q pts]]; simpl; [lia..|].
  intros _ Hnd. exists p, q.
  split; [by left|]. split; [by right; left|].
  apply NoDup_cons in Hnd as [Hnotin _].
  intros Heq. apply Hnotin. rewrite Heq. by left.
Qed.

(** The regression step in terms of the points. *)
Lemma fit_slope_points (scales : list Z) (lk : list npfloat) :
  length lk = length scales → Forall (λ k, 1 ≤ k)%Z scales →
  let pts := Spec.points scales lk in
  Higuchi.fit_slope polyfit scales lk =
    if decide (length pts < 2)%nat then 0%R
    else polyfit (map fst pts) (map snd pts).
Proof.
  intros Hlen Hall pts.
  destruct (points_coordinates scales lk Hlen Hall) as (Hx & Hy & Hn).
  cbv zeta in *. unfold Higuchi.fit_slope, pts.
  by rewrite Hx, Hy, Hn.
Qed.

Lemma center_length (sig : list R) : length (Higuchi.center sig) = length sig.
Proof. unfold Higuchi.center. by rewrite length_map. Qed.

(** On a real-valued signal the array [lk] holds the logarithm of
    [Lk + 1e-12] for every scale from 1 to [N // 2]. *)
Lemma lk_entries_ordinates (scales : list Z) (sig : list R) :
  Forall (λ k, 1 ≤ k ≤ Z.of_nat (length sig / 2))%Z scales →
  map (Higuchi.lk_entry sig (length sig)) scales = Spec.ordinates sig scales.
Proof.
  intros Hall. rewrite (lk_entries_finite scales sig Hall).
  unfold Spec.ordinates. by rewrite epsilon_eq.
Qed.

End RegressionPoints.

(** C2.  For a signal of length [N >= 10] and scales from 1 to [N // 2],
    which is where the scale set lies, the HFD is the regression step
    applied to the scales and to the ordinates [y = log(Lk + 1e-12)].  The
    regression step, on any array of ordinates and distinct scales, builds
    the pairs [(log(1/k), y)], discards those whose [y] is infinite or NaN,
    returns exactly 0 when fewer than 2 remain, and else returns what
    [np.polyfit] returns on the remaining pairs, which is the slope of the
    ordinary least-squares line [y = slope * x + intercept] through them as
    far as [np.polyfit] computes it. *)
Theorem hfd_is_least_squares_slope (polyfit : list R → list R → R)
    (scales : list Z) (raw : list R) :
  let n := length raw in
  (10 ≤ n)%nat →
  NoDup scales →
  Forall (λ k, 1 ≤ k ≤ Z.of_nat (n / 2))%Z scales →
  Higuchi.hfd_signal polyfit scales n raw =
    Higuchi.fit_slope polyfit scales
      (Spec.ordinates (Spec.centred raw) scales) ∧
  ∀ lk : list npfloat, length lk = length scales →
    let pts := Spec.points scales lk in
    ((length pts < 2)%nat → Higuchi.fit_slope polyfit scales lk = 0%R) ∧
    ((2 ≤ length pts)%nat →
       Higuchi.fit_slope polyfit scales lk = polyfit (map fst pts) (map snd pts) ∧
       (Spec.least_squares polyfit →
          Spec.ols_slope pts (Higuchi.fit_slope polyfit scales lk))).
Proof.
  intros n Hn Hnd Hall.
  assert (Forall (λ k, 1 ≤ k)%Z scales) as Hpos.
  { eapply Forall_impl; [exact Hall|]. simpl. lia. }
  split.
  - unfold Higuchi.hfd_signal. cbv zeta. f_equal.
    rewrite <- (center_centred raw). unfold n.
    rewrite <- (center_length raw).
    apply lk_entries_ordinates. by rewrite center_length.
  - intros lk Hlen pts.
    rewrite (fit_slope_points polyfit scales lk Hlen Hpos). fold pts.
    split; intros Hpts; destruct (decide (length pts < 2)%nat); try lia; [done|].
    split; [done|]. intros Hls.
    destruct (two_distinct_abscissas pts Hpts) as (p & q & Hp & Hq & Hne).
    { by apply regression_abscissas_distinct. }
    by apply (Hls pts p q).
Qed.

Lemma hfd_is_least_squares_slope_witness :
  let raw := [0; 1; 0; 1; 0; 1; 0; 1; 0; 3]%R in
  let scales := [1; 2; 3; 4; 5]%Z in
  (10 ≤ length raw)%nat ∧
  NoDup scales ∧
  Forall (λ k, 1 ≤ k ≤ Z.of_nat (length raw / 2))%Z scales ∧
  Higuchi.hfd_signal Np.polyfit_ideal scales (length raw) raw =
    Higuchi.fit_slope Np.polyfit_ideal scales
      (Spec.ordinates (Spec.centred raw) scales).
Proof.
  intros raw scales.
  assert (10 ≤ length raw)%nat as H1 by (simpl; lia).
  assert (NoDup scales) as H2 by (apply (bool_decide_unpack _); by vm_compute).
  assert (Forall (λ k, 1 ≤ k ≤ Z.of_nat (length raw / 2))%Z scales) as H3
    by (apply (bool_decide_unpack _); by vm_compute).
  split; [exact H1|]. split; [exact H2|]. split; [exact H3|].
  exact (proj1 (hfd_is_least_squares_slope Np.polyfit_ideal scales raw H1 H2 H3)).
Defined.

(** ** The batch loop *)

Section Batch.

Variable logspace : Z → list R.
Variable polyfit : list R → list R → R.

Lemma hfd_vals_lookup (kmax : Z) (n_time : nat) (X_flat : list (list R))
    (i : nat) (sig : list R) :
  X_flat !! i = Some sig →
  Higuchi.hfd_vals logspace polyfit kmax n_time X_flat !! i =
    Some (if decide (n_time < 10)%nat then 0%R
          else if decide (Higuchi.max_k_of kmax n_time < 2)%Z then 0%R
          else Higuchi.hfd_signal polyfit
                 (Higuchi.scales_of logspace (Higuchi.max_k_of kmax n_time))
                 n_time sig).
Proof.
  intros Hi. apply lookup_lt_Some in Hi as Hlt. unfold Higuchi.hfd_vals.
  destruct (decide (n_time < 10)%nat).
  { by apply lookup_replicate_2. }
  cbv zeta. destruct (decide (Higuchi.max_k_of kmax n_time < 2)%Z).
  { by apply lookup_replicate_2. }
  change (map ?f ?l) with (f <$> l).
  by rewrite list_lookup_fmap, Hi.
Qed.

Lemma hfd_vals_length (kmax : Z) (n_time : nat) (X_flat : list (list R)) :
  length (Higuchi.hfd_vals logspace polyfit kmax n_time X_flat) = length X_flat.
Proof.
  unfold Higuchi.hfd_vals.
  repeat case_decide; by rewrite ?length_replicate, ?length_map.
Qed.

Lemma max_k_of_ge_2 (kmax : Z) (n : nat) :
  (10 ≤ n)%nat → (2 ≤ kmax)%Z → (2 ≤ Higuchi.max_k_of kmax n)%Z.
Proof.
  intros Hn Hk. unfold Higuchi.max_k_of.
  assert (5 ≤ n / 2)%nat by (apply Nat.div_le_lower_bound; lia).
  lia.
Qed.

(** With samples of [np.logspace] within the relative error [err], every
    scale of the set is at most [n_time // 2]. *)
Lemma scales_of_below_half (err : R) (kmax : Z) (n_time : nat) :
  let max_k := Higuchi.max_k_of kmax n_time in
  (1 ≤ max_k)%Z → (err * IZR max_k < 1)%R →
  Np.logspace_within err max_k (logspace max_k) →
  Forall (λ k, 1 ≤ k ≤ Z.of_nat (n_time / 2))%Z
    (Higuchi.scales_of logspace max_k).
Proof.
  intros max_k Hk Herr Hacc. apply Forall_forall. intros k Hin.
  eapply scales_of_range in Hin; [|exact Hk|exact Herr|exact Hacc].
  unfold max_k, Higuchi.max_k_of in *. lia.
Qed.

End Batch.

(** The samples of exact arithmetic start at 1 and end at [max_k]. *)
Lemma scales_of_ideal_ends (max_k : Z) :
  (2 ≤ max_k)%Z →
  1%Z ∈ Higuchi.scales_of Np.logspace_ideal max_k ∧
  max_k ∈ Higuchi.scales_of Np.logspace_ideal max_k ∧
  (2 ≤ length (Higuchi.scales_of Np.logspace_ideal max_k))%nat.
Proof.
  intros Hk.
  assert (0 < IZR max_k)%R as HM by (apply IZR_lt; lia).
  assert (1%Z ∈ Higuchi.scales_of Np.logspace_ideal max_k) as H1.
  { apply scales_of_elem. split; [lia|]. exists 1%R. split.
    - apply list_elem_of_fmap. exists 0%nat. split; [|apply elem_of_seq; lia].
      rewrite logspace_exact_power. simpl INR.
      replace (0 / 9)%R with 0%R by lra. by rewrite Rpower_O.
    - by rewrite astype_int_IZR. }
  assert (max_k ∈ Higuchi.scales_of Np.logspace_ideal max_k) as H2.
  { apply scales_of_elem. split; [lia|]. exists (IZR max_k). split.
    - apply list_elem_of_fmap. exists 9%nat. split; [|apply elem_of_seq; lia].
      rewrite logspace_exact_power.
      replace (INR 9 / 9)%R with 1%R by (simpl; lra). by rewrite Rpower_1.
    - by rewrite astype_int_IZR. }
  split; [done|]. split; [done|].
  destruct (Higuchi.scales_of Np.logspace_ideal max_k) as [|x [|y l]];
    simpl; [| |lia].
  - by apply elem_of_nil in H1.
  - apply list_elem_of_singleton in H1, H2. lia.
Qed.

(** C10.  For a signal of length [N >= 10], whatever its samples, every
    scale [k] from 1 to [N // 2] lets offset 0 read at least 2 samples, so
    the loop counts at least one qualifying offset and the [count == 0]
    branch is not reached.  When the samples are finite (and the curve
    lengths computed without overflow) each [Lk] is a mean of nonnegative
    terms, each stored ordinate [log(Lk + 1e-12)] is finite, and fewer than
    2 valid ordinates can only occur with fewer than 2 scales.  A NaN
    sample makes every stored ordinate NaN: the mask discards them all and
    the value 0 is stored, however many scales there are. *)
Theorem offsets_qualify_and_ordinates_finite (scales : list Z)
    (sig : list npfloat) :
  let n := length sig in
  (10 ≤ n)%nat →
  Forall (λ k, 1 ≤ k ≤ Z.of_nat (n / 2))%Z scales →
  let lk := map (Ieee.lk_entry (Ieee.center sig) n) scales in
  (∀ k, k ∈ scales →
     (2 ≤ length (Np.arange 0 n (Z.to_nat k)))%nat ∧
     (Ieee.offset_loop (Ieee.center sig) n k).2 ≠ 0%nat) ∧
  (∀ s : list R, sig = map Finite s →
     (∀ k, k ∈ scales →
        let l := Spec.Lk (Spec.centred s) (Z.to_nat k) in
        Ieee.Lk (Ieee.center sig) n k = Finite l ∧
        (∀ m, 0 <= Spec.L (Spec.centred s) (Z.to_nat k) m)%R ∧
        (0 <= l)%R ∧
        Ieee.lk_entry (Ieee.center sig) n k = Finite (ln (l + Spec.epsilon))) ∧
     ((Np.count_nonzero (Higuchi.valid_mask lk) < 2)%nat →
        (length scales < 2)%nat)) ∧
  (NaN ∈ sig →
     lk = replicate (length scales) NaN ∧
     Np.count_nonzero (Higuchi.valid_mask lk) = 0%nat ∧
     ∀ polyfit, Ieee.hfd_signal polyfit scales n sig = 0%R).
Proof.
  intros n Hn Hall lk.
  assert (∀ k, k ∈ scales → (1 ≤ k)%Z ∧ (Z.to_nat k < n)%nat) as Hk.
  { intros k Hin. eapply Forall_forall in Hall; [|exact Hin].
    split; [lia|by apply half_below_length]. }
  split; [|split].
  - intros k [Hk1 Hlt]%Hk.
    split; [apply arange_zero_length; lia|by apply ieee_offset_count].
  - intros s Hs.
    assert (Ieee.center sig = map Finite (Higuchi.center s)) as Hcs
      by (rewrite Hs; apply ieee_center_finite).
    assert (length (Higuchi.center s) = n) as Hlen.
    { rewrite center_length. unfold n. by rewrite Hs, length_map. }
    unfold lk. rewrite Hcs. clear lk. rewrite <- (center_centred s).
    split.
    + intros k [Hk1 Hlt]%Hk; cbv zeta.
      assert (Spec.qualifying_offsets (Higuchi.center s) (Z.to_nat k) ≠ [])
        as Hne by (apply qualifying_offsets_nonempty; lia).
      pose proof (Lk_refines (Higuchi.center s) k Hk1 Hne) as Href.
      rewrite Hlen in Href.
      split.
      { rewrite ieee_Lk_finite, Href; [done..|].
        rewrite <- Hlen, offset_loop_spec by done. simpl.
        intros Hz. by apply length_zero_iff_nil in Hz. }
      split; [intros m; apply L_nonneg|].
      split; [apply spec_Lk_nonneg|].
      rewrite ieee_lk_entry_finite by done.
      rewrite <- Hlen, epsilon_eq. apply lk_entry_finite; lia.
    + replace (map (Ieee.lk_entry (map Finite (Higuchi.center s)) n) scales)
        with (Spec.ordinates (Higuchi.center s) scales).
      * unfold Spec.ordinates. rewrite valid_mask_finite.
        { by rewrite count_nonzero_replicate, length_map. }
        apply Forall_forall. intros v Hv.
        apply list_elem_of_fmap in Hv as (k & -> & _). by eexists.
      * rewrite <- lk_entries_ordinates by (by rewrite Hlen).
        rewrite Hlen. apply list_fmap_ext. intros i k Hi.
        apply list_elem_of_lookup_2, Hk in Hi as [Hk1 _].
        by rewrite ieee_lk_entry_finite.
  - intros Hnan.
    assert (lk = replicate (length scales) NaN) as Hlk
      by (by apply ieee_lk_entries_nan).
    split; [done|].
    assert (Np.count_nonzero (Higuchi.valid_mask lk) = 0%nat) as Hcount
      by (by rewrite Hlk, valid_mask_nan, count_nonzero_none).
    split; [done|].
    intros polyfit. by apply ieee_hfd_signal_nan.
Qed.

Lemma offsets_qualify_and_ordinates_finite_witness :
  let s := [0; 1; 0; 1; 0; 1; 0; 1; 0; 3]%R in
  let scales := [1; 2; 3; 4; 5]%Z in
  (10 ≤ length (map Finite s))%nat ∧
  Forall (λ k, 1 ≤ k ≤ Z.of_nat (length (map Finite s) / 2))%Z scales ∧
  ((Np.count_nonzero (Higuchi.valid_mask
      (map (Ieee.lk_entry (Ieee.center (map Finite s)) (length (map Finite s)))
         scales)) < 2)%nat →
   (length scales < 2)%nat).
Proof.
  intros s scales.
  assert (10 ≤ length (map Finite s))%nat as H1 by (simpl; lia).
  assert (Forall (λ k, 1 ≤ k ≤ Z.of_nat (length (map Finite s) / 2))%Z scales)
    as H2 by (apply (bool_decide_unpack _); by vm_compute).
  split; [exact H1|]. split; [exact H2|].
  exact (proj2 (proj1 (proj2
    (offsets_qualify_and_ordinates_finite scales (map Finite s) H1 H2))
    s eq_refl)).
Defined.

(** One NaN among ten samples, with [kmax = 100]: the signal reaches the
    per-signal computation with [max_k = 5]; on the five scales from 1 to
    5 no stored ordinate is finite, and fewer than 2 ordinates are valid
    although there are 5 scales.  The value 0 is stored for the signal,
    with the scale set of exact samples (which has at least 2 scales) as
    with any other. *)
Lemma nan_sample_defeats_finiteness :
  let sig := NaN :: replicate 9 (Finite 1) in
  let scales := [1; 2; 3; 4; 5]%Z in
  let lk := map (Ieee.lk_entry (Ieee.center sig) (length sig)) scales in
  (10 ≤ length sig)%nat ∧
  (2 ≤ Higuchi.max_k_of 100 (length sig))%Z ∧
  Forall (λ k, 1 ≤ k ≤ Z.of_nat (length sig / 2))%Z scales ∧
  lk = [NaN; NaN; NaN; NaN; NaN] ∧
  ¬ ((Np.count_nonzero (Higuchi.valid_mask lk) < 2)%nat →
     (length scales < 2)%nat) ∧
  (2 ≤ length (Higuchi.scales_of Np.logspace_ideal
                 (Higuchi.max_k_of 100 (length sig))))%nat ∧
  ∀ polyfit, Ieee.hfd_vals Np.logspace_ideal polyfit 100 (length sig) [sig] =
               [0%R].
Proof.
  intros sig scales lk.
  assert (NaN ∈ sig) as Hnan by (by left).
  assert (10 ≤ length sig)%nat as H1 by (simpl; lia).
  assert (2 ≤ Higuchi.max_k_of 100 (length sig))%Z as Hmax
    by (vm_compute; discriminate).
  assert (Forall (λ k, 1 ≤ k ≤ Z.of_nat (length sig / 2))%Z scales) as H2
    by (apply (bool_decide_unpack _); by vm_compute).
  assert (lk = [NaN; NaN; NaN; NaN; NaN]) as Hlk.
  { unfold lk. by rewrite ieee_lk_entries_nan. }
  split; [exact H1|]. split; [exact Hmax|]. split; [exact H2|].
  split; [exact Hlk|].
  split; [rewrite Hlk; simpl; lia|].
  split; [by apply scales_of_ideal_ends|].
  intros polyfit. unfold Ieee.hfd_vals.
  rewrite decide_False by lia. cbv zeta. rewrite decide_False by lia.
  simpl map. f_equal. apply ieee_hfd_signal_nan; [done|].
  apply (scales_of_below_half Np.logspace_ideal 0 100 (length sig));
    [lia|lra|apply logspace_ideal_within].
Qed.

(** ** Constant signals *)

Section ConstantSignal.

Variable polyfit : list R → list R → R.

Lemma center_replicate (n : nat) (c : R) :
  Higuchi.center (replicate n c) =
    replicate n (c - Np.mean (replicate n c))%R.
Proof.
  unfold Higuchi.center. generalize (Np.mean (replicate n c)). intros mu.
  induction n as [|n IH]; simpl; [done|by rewrite IH].
Qed.

Lemma take_replicate (n : nat) (d : R) (idx : list nat) :
  Forall (λ i, i < n)%nat idx →
  Np.take (replicate n d) idx = replicate (length idx) d.
Proof.
  induction 1 as [|i idx Hi _ IH]; [done|].
  unfold Np.take in *. simpl. rewrite IH.
  by rewrite (lookup_replicate_2 n d i Hi).
Qed.

Lemma abs_diff_sum_replicate (m : nat) (d : R) :
  Spec.abs_diff_sum (replicate m d) = 0%R.
Proof.
  induction m as [|[|m] IH]; [done..|].
  change (Spec.abs_diff_sum (replicate (S (S m)) d))
    with (Rabs (d - d) + Spec.abs_diff_sum (replicate (S m) d))%R.
  rewrite IH. replace (d - d)%R with 0%R by lra. rewrite Rabs_R0. lra.
Qed.

Lemma L_replicate (n : nat) (d : R) (k m : nat) :
  (1 ≤ k)%nat → Spec.L (replicate n d) k m = 0%R.
Proof.
  intros Hk. unfold Spec.L. cbv zeta.
  rewrite subsequence_take by done. rewrite length_replicate.
  rewrite take_replicate.
  - rewrite abs_diff_sum_replicate. unfold Rdiv. by rewrite !Rmult_0_l.
  - apply Forall_forall. intros i Hi. by eapply arange_in_range.
Qed.

(** A constant signal has curve length 0 at every scale. *)
Lemma spec_Lk_replicate (n : nat) (d : R) (k : nat) :
  (1 ≤ k)%nat → Spec.Lk (replicate n d) k = 0%R.
Proof.
  intros Hk. unfold Spec.Lk. cbv zeta.
  destruct (Spec.qualifying_offsets (replicate n d) k) as [|m qs]; [done|].
  replace (map (Spec.L (replicate n d) k) (m :: qs))
    with (map (λ _ : nat, 0%R) (m :: qs)).
  - generalize (m :: qs). intros l.
    replace (Spec.total (map (λ _ : nat, 0%R) l)) with 0%R.
    + unfold Rdiv. by rewrite Rmult_0_l.
    + induction l as [|x l IH]; simpl; [done|]. rewrite <- IH. lra.
  - apply map_ext. intros m'. by rewrite L_replicate.
Qed.

Lemma points_ordinate (scales : list Z) (lk : list npfloat) (p : R * R) :
  p ∈ Spec.points scales lk → Finite p.2 ∈ lk.
Proof.
  revert lk. induction scales as [|k scales IH]; intros [|y lk] Hp;
    try by apply elem_of_nil in Hp.
  rewrite points_cons in Hp.
  destruct y; try (right; by apply IH).
  apply elem_of_cons in Hp as [->|Hp]; [by left|right; by apply IH].
Qed.

(** The regression step on ordinates that are all finite. *)
Lemma fit_slope_all_finite (scales : list Z) (ys : list R) :
  Forall (λ k, 1 ≤ k)%Z scales → length ys = length scales →
  Higuchi.fit_slope polyfit scales (map Finite ys) =
    if decide (length scales < 2)%nat then 0%R
    else polyfit (map (λ k, ln (1 / IZR k)) scales) ys.
Proof.
  intros Hpos Hlen. unfold Higuchi.fit_slope. cbv zeta.
  rewrite valid_mask_finite.
  2:{ apply Forall_forall. intros v Hv.
      apply list_elem_of_fmap in Hv as (y & -> & _). by eexists. }
  rewrite count_nonzero_replicate, compress_replicate.
  rewrite length_map, Hlen, compress_replicate.
  case_decide; [done|]. f_equal.
  - apply list_fmap_ext. intros i k Hk.
    apply list_elem_of_lookup_2 in Hk.
    eapply Forall_forall in Hpos; [|exact Hk].
    by rewrite log_inv_scale.
  - rewrite <- list_fmap_compose. apply list_fmap_id.
Qed.

Lemma points_all_finite (scales : list Z) (ys : list R) :
  length ys = length scales →
  Spec.points scales (map Finite ys) =
    zip (map (λ k, ln (1 / IZR k)) scales) ys.
Proof.
  revert ys. induction scales as [|k scales IH]; intros [|y ys] Hlen;
    try done.
  simpl map. rewrite points_cons. simpl. f_equal. apply IH.
  simpl in Hlen. lia.
Qed.

(** Curve lengths, ordinates and HFD of a constant signal. *)
Lemma constant_signal_hfd (scales : list Z) (n : nat) (c : R) :
  let sig := replicate n c in
  Forall (λ k, 1 ≤ k ≤ Z.of_nat (n / 2))%Z scales →
  (∀ k, k ∈ scales →
     Higuchi.Lk (Higuchi.center sig) n k = 0%R ∧
     Higuchi.lk_entry (Higuchi.center sig) n k = Finite (ln Spec.epsilon)) ∧
  Higuchi.hfd_signal polyfit scales n sig =
    if decide (length scales < 2)%nat then 0%R
    else polyfit (map (λ k, ln (1 / IZR k)) scales)
           (replicate (length scales) (ln Spec.epsilon)).
Proof.
  intros sig Hall.
  set (d := (c - Np.mean sig)%R).
  assert (Higuchi.center sig = replicate n d) as Hc by apply center_replicate.
  assert (∀ k, k ∈ scales →
            Higuchi.lk_entry (replicate n d) n k = Finite (ln Spec.epsilon) ∧
            Higuchi.Lk (replicate n d) n k = 0%R) as Hent.
  { intros k Hk. eapply Forall_forall in Hall; [|exact Hk].
    pose proof (half_below_length n k Hall) as Hlt.
    pose proof (lk_entry_finite (replicate n d) k) as Hfin.
    pose proof (Lk_refines (replicate n d) k) as Href.
    rewrite length_replicate in Hfin, Href.
    rewrite Hfin, Href, spec_Lk_replicate; [|lia..| |lia|lia].
    - by rewrite epsilon_eq, Rplus_0_l.
    - apply qualifying_offsets_nonempty; [lia|by rewrite length_replicate]. }
  split.
  - intros k Hk. rewrite Hc. destruct (Hent k Hk). done.
  - unfold Higuchi.hfd_signal. cbv zeta. rewrite Hc.
    replace (map (Higuchi.lk_entry (replicate n d) n) scales)
      with (map Finite (replicate (length scales) (ln Spec.epsilon))).
    + apply fit_slope_all_finite; [|by rewrite length_replicate].
      eapply Forall_impl; [exact Hall|]. simpl. lia.
    + clear Hall. induction scales as [|k scales IH]; [done|].
      simpl. rewrite IH.
      * f_equal. symmetry. apply Hent. by left.
      * intros k' Hk'. apply Hent. by right.
Qed.

(** With an exact least-squares fit the value is 0. *)
Lemma constant_signal_hfd_exact (scales : list Z) (n : nat) (c : R) :
  NoDup scales →
  Forall (λ k, 1 ≤ k ≤ Z.of_nat (n / 2))%Z scales →
  Spec.least_squares polyfit →
  Higuchi.hfd_signal polyfit scales n (replicate n c) = 0%R.
Proof.
  intros Hnd Hall Hls.
  destruct (constant_signal_hfd scales n c Hall) as [_ ->].
  case_decide as Hlen; [done|].
  assert (Forall (λ k, 1 ≤ k)%Z scales) as Hpos.
  { eapply Forall_impl; [exact Hall|]. simpl. lia. }
  set (ys := replicate (length scales) (ln Spec.epsilon)).
  assert (length ys = length scales) as Hys by apply length_replicate.
  set (pts := Spec.points scales (map Finite ys)).
  assert (length pts = length scales) as Hpts.
  { unfold pts. rewrite points_all_finite by done.
    by rewrite length_zip, length_map, Hys, Nat.min_id. }
  assert (map fst pts = map (λ k, ln (1 / IZR k)) scales ∧ map snd pts = ys)
    as [Hx Hy].
  { unfold pts. rewrite points_all_finite by done.
    split; [apply fst_zip|apply snd_zip]; rewrite length_map; lia. }
  destruct (two_distinct_abscissas pts) as (p & q & Hp & Hq & Hne).
  { lia. }
  { by apply regression_abscissas_distinct. }
  pose proof (Hls pts p q Hp Hq Hne) as Hols. rewrite Hx, Hy in Hols.
  apply (ols_slope_flat pts (ln Spec.epsilon)); [|done].
  intros r Hr. apply points_ordinate in Hr.
  apply list_elem_of_fmap in Hr as (y & Hy' & Hin).
  apply elem_of_replicate in Hin as [-> _]. by injection Hy'.
Qed.

End ConstantSignal.

(** C8.  For a constant signal with [N >= 10] and [kmax >= 2], the curve
    length [Lk] of the centred signal is 0 at every scale of the set, every
    stored ordinate is [log(1e-12)], and none is discarded.  The output
    element is therefore not produced by the fallback (unless the set has a
    single scale): it is what [np.polyfit] returns for ordinates that are
    all equal.  That is 0 when the fit is the exact least-squares fit; a
    fit in doubles may return rounding noise instead. *)
Theorem constant_signal_zero (logspace : Z → list R)
    (polyfit : list R → list R → R) (err : R) (kmax : Z) (n : nat) (c : R)
    (X_flat : list (list R)) (i : nat) :
  let sig := replicate n c in
  let max_k := Higuchi.max_k_of kmax n in
  let scales := Higuchi.scales_of logspace max_k in
  (10 ≤ n)%nat → (2 ≤ kmax)%Z →
  (err * IZR max_k < 1)%R → Np.logspace_within err max_k (logspace max_k) →
  X_flat !! i = Some sig →
  (∀ k, k ∈ scales →
     Higuchi.Lk (Higuchi.center sig) n k = 0%R ∧
     Higuchi.lk_entry (Higuchi.center sig) n k = Finite (ln Spec.epsilon)) ∧
  Higuchi.hfd_vals logspace polyfit kmax n X_flat !! i =
    Some (if decide (length scales < 2)%nat then 0%R
          else polyfit (map (λ k, ln (1 / IZR k)) scales)
                 (replicate (length scales) (ln Spec.epsilon))) ∧
  (Spec.least_squares polyfit →
     Higuchi.hfd_vals logspace polyfit kmax n X_flat !! i = Some 0%R).
Proof.
  intros sig max_k scales Hn Hkmax Herr Hacc Hi. subst sig.
  pose proof (max_k_of_ge_2 kmax n Hn Hkmax) as Hmax. fold max_k in Hmax.
  assert (Forall (λ k, 1 ≤ k ≤ Z.of_nat (n / 2))%Z scales) as Hall.
  { apply (scales_of_below_half logspace err kmax n); [|done..].
    fold max_k. lia. }
  destruct (constant_signal_hfd polyfit scales n c Hall) as [Hent Hhfd].
  assert (Higuchi.hfd_vals logspace polyfit kmax n X_flat !! i =
            Some (Higuchi.hfd_signal polyfit scales n (replicate n c))) as Hval.
  { rewrite (hfd_vals_lookup logspace polyfit kmax n X_flat i _ Hi).
    rewrite decide_False by lia. fold max_k. by rewrite decide_False by lia. }
  split; [done|].
  split; [by rewrite Hval, Hhfd|].
  intros Hls. rewrite Hval. f_equal.
  apply constant_signal_hfd_exact; [|done..].
  apply sorted_lt_NoDup, scales_of_sorted.
Qed.

Lemma constant_signal_zero_witness :
  let max_k := Higuchi.max_k_of 50 12 in
  (10 ≤ 12)%nat ∧ (2 ≤ 50)%Z ∧
  (0 * IZR max_k < 1)%R ∧
  Np.logspace_within 0 max_k (Np.logspace_ideal max_k) ∧
  [replicate 12 5%R] !! 0%nat = Some (replicate 12 5%R) ∧
  Spec.least_squares Np.polyfit_ideal ∧
  Higuchi.hfd_vals Np.logspace_ideal Np.polyfit_ideal 50 12
    [replicate 12 5%R] !! 0%nat = Some 0%R.
Proof.
  intros max_k.
  assert (10 ≤ 12)%nat as H1 by lia.
  assert (2 ≤ 50)%Z as H2 by lia.
  assert (0 * IZR max_k < 1)%R as H3 by lra.
  pose proof (logspace_ideal_within max_k) as H4.
  assert ([replicate 12 5%R] !! 0%nat = Some (replicate 12 5%R)) as H5
    by reflexivity.
  pose proof polyfit_ideal_least_squares as H6.
  split; [exact H1|]. split; [exact H2|]. split; [exact H3|].
  split; [exact H4|]. split; [exact H5|]. split; [exact H6|].
  exact (proj2 (proj2
    (constant_signal_zero Np.logspace_ideal Np.polyfit_ideal 0 50 12 5
       [replicate 12 5%R] 0 H1 H2 H3 H4 H5)) H6).
Defined.

(** The constant signal of twelve samples 5.0 with [kmax = 50], and a
    [polyfit] that is within [2e-14] of the exact least-squares slope: the
    output element is [1.18e-14], not 0.  The scale set is the one of exact
    samples here; any set of at least 2 scales up to 6 gives the same. *)
Lemma constant_signal_not_exactly_zero :
  let noisy := λ x y : list R, (Np.polyfit_ideal x y + 118 / 10 ^ 16)%R in
  let X_flat := [replicate 12 5%R] in
  (∀ x y, (Rabs (noisy x y - Np.polyfit_ideal x y) <= 2 / 10 ^ 14)%R) ∧
  Higuchi.hfd_vals Np.logspace_ideal noisy 50 12 X_flat !! 0%nat =
    Some (118 / 10 ^ 16)%R ∧
  Higuchi.hfd_vals Np.logspace_ideal noisy 50 12 X_flat !! 0%nat ≠ Some 0%R ∧
  ∀ logspace : Z → list R,
    let scales := Higuchi.scales_of logspace (Higuchi.max_k_of 50 12) in
    Forall (λ k, 1 ≤ k ≤ 6)%Z scales → (2 ≤ length scales)%nat →
    Higuchi.hfd_vals logspace noisy 50 12 X_flat !! 0%nat =
      Some (118 / 10 ^ 16)%R.
Proof.
  intros noisy X_flat.
  assert (∀ logspace : Z → list R,
    let scales := Higuchi.scales_of logspace (Higuchi.max_k_of 50 12) in
    Forall (λ k, 1 ≤ k ≤ 6)%Z scales → (2 ≤ length scales)%nat →
    Higuchi.hfd_vals logspace noisy 50 12 X_flat !! 0%nat =
      Some (118 / 10 ^ 16)%R) as Hgen.
  { intros logspace scales Hall Hlen.
    rewrite (hfd_vals_lookup logspace noisy 50 12 X_flat 0 (replicate 12 5%R))
      by done.
    rewrite decide_False by lia.
    rewrite decide_False by (vm_compute; discriminate).
    fold scales. f_equal.
    assert (NoDup scales) as Hnd by apply sorted_lt_NoDup, scales_of_sorted.
    pose proof (constant_signal_hfd_exact Np.polyfit_ideal scales 12 5 Hnd Hall
                  polyfit_ideal_least_squares) as Hzero.
    destruct (constant_signal_hfd Np.polyfit_ideal scales 12 5 Hall)
      as [_ Hideal].
    destruct (constant_signal_hfd noisy scales 12 5 Hall) as [_ ->].
    rewrite Hzero in Hideal.
    rewrite decide_False in Hideal |- * by lia.
    unfold noisy. rewrite <- Hideal. lra. }
  split.
  { intros x y. unfold noisy.
    replace (Np.polyfit_ideal x y + 118 / 10 ^ 16 - Np.polyfit_ideal x y)%R
      with (118 / 10 ^ 16)%R by ring.
    rewrite Rabs_pos_eq; lra. }
  assert (Higuchi.hfd_vals Np.logspace_ideal noisy 50 12 X_flat !! 0%nat =
            Some (118 / 10 ^ 16)%R) as Hrun.
  { apply Hgen.
    - apply (scales_of_below_half Np.logspace_ideal 0 50 12);
        [vm_compute; discriminate|lra|apply logspace_ideal_within].
    - apply scales_of_ideal_ends. vm_compute; discriminate. }
  split; [exact Hrun|]. split; [|exact Hgen].
  rewrite Hrun. intros [= Heq]. lra.
Qed.

(** ** The call as a whole: checks, shapes and layouts *)

Section Call.

Variable logspace : Z → list R.
Variable polyfit : list R → list R → R.

Implicit Types (d : gmap string pyval) (a : ndarray) (kwargs : gmap string bool).

(** A call that passes the checks returns the dictionary with ['X']
    replaced by the reshaped [hfd_vals]. *)
Lemma higuchi_fractal_ok d a (kmaxv : pyval) (kmax : Z) (flating : bool) kwargs
    (t b e n : nat) :
  d !! "X" = Some (PyNdarray a) → as_int kmaxv = Some kmax →
  Higuchi.normalize_shape a = Ok (t, b, e, n) →
  Higuchi.higuchi_fractal logspace polyfit (PyDict d) kmaxv flating kwargs =
    Ok (PyDict (<["X" := PyNdarray
      (NdArray
         (if Higuchi.effective_flating flating kwargs
          then [t; (b * e)%nat] else [t; b; e])
         (Higuchi.hfd_vals logspace polyfit (Higuchi.clamp_kmax kmax) n
            (Np.reshape2 (t * b * e) n (data a))))]> d)).
Proof.
  intros HX Hk Hshape. unfold Higuchi.higuchi_fractal.
  rewrite HX, Hk, Hshape. simpl.
  by destruct (Higuchi.effective_flating flating kwargs).
Qed.

Lemma normalize_shape_ok a :
  (length (shape a) = 3 ∨ length (shape a) = 4)%nat →
  ∃ t b e n, Higuchi.normalize_shape a = Ok (t, b, e, n).
Proof.
  unfold Higuchi.normalize_shape.
  destruct (shape a) as [|t [|b [|e [|n [|x s]]]]]; simpl; intros [?|?];
    try lia; eauto.
Qed.

Lemma normalize_shape_bad a :
  length (shape a) ≠ 3%nat → length (shape a) ≠ 4%nat →
  Higuchi.normalize_shape a = Raise (InvalidShapeError (shape a)).
Proof.
  unfold Higuchi.normalize_shape.
  destruct (shape a) as [|t [|b [|e [|n [|x s]]]]]; simpl; intros ??;
    try lia; done.
Qed.

Lemma reshape2_length (rows cols : nat) (l : list R) :
  length (Np.reshape2 rows cols l) = rows.
Proof. unfold Np.reshape2. by rewrite length_map, length_seq. Qed.

Lemma ravel_grid (T B E t b e : nat) :
  (t < T)%nat → (b < B)%nat → (e < E)%nat →
  ravel [T; B; E] [t; b; e] 0 = Some ((t * B + b) * E + e)%nat ∧
  ((t * B + b) * E + e < T * B * E)%nat.
Proof.
  intros Ht Hb He. simpl.
  rewrite !decide_True by done. split; [done|].
  assert (t * B + b + 1 ≤ T * B)%nat as H1 by nia.
  apply (Nat.mul_le_mono_r _ _ E) in H1. lia.
Qed.

Lemma ravel_flat (T B E t b e : nat) :
  (t < T)%nat → (b < B)%nat → (e < E)%nat →
  ravel [T; (B * E)%nat] [t; (b * E + e)%nat] 0 =
    Some ((t * B + b) * E + e)%nat.
Proof.
  intros Ht Hb He. simpl.
  assert ((b + 1) * E ≤ B * E)%nat as H1 by (apply Nat.mul_le_mono_r; lia).
  rewrite decide_True by done. rewrite decide_True by lia.
  f_equal. lia.
Qed.

End Call.

(** C4.  When the time length is below 10, and likewise when
    [min(kmax, N // 2)] is below 2 ([kmax] being the value the source
    holds at that point, after the clamp of a caller's value below 2),
    [hfd_vals] is the array of zeros, built without looking at any signal;
    every element of the output of a call is then exactly 0. *)
Theorem short_signals_zero (logspace : Z → list R)
    (polyfit : list R → list R → R) (kmax : Z) (n_time : nat) :
  (n_time < 10)%nat ∨ (Higuchi.max_k_of kmax n_time < 2)%Z →
  (∀ X_flat : list (list R),
     Higuchi.hfd_vals logspace polyfit kmax n_time X_flat =
       replicate (length X_flat) 0%R) ∧
  (∀ (d : gmap string pyval) (a : ndarray) (kmaxv : pyval) (kmax0 : Z)
     (flating : bool) (kwargs : gmap string bool) (t b e : nat),
     d !! "X" = Some (PyNdarray a) → as_int kmaxv = Some kmax0 →
     Higuchi.clamp_kmax kmax0 = kmax →
     Higuchi.normalize_shape a = Ok (t, b, e, n_time) →
     ∃ out,
       Higuchi.higuchi_fractal logspace polyfit (PyDict d) kmaxv flating kwargs =
         Ok (PyDict (<["X" := PyNdarray out]> d)) ∧
       data out = replicate (t * b * e) 0%R).
Proof.
  intros Hshort.
  assert (∀ X_flat : list (list R),
    Higuchi.hfd_vals logspace polyfit kmax n_time X_flat =
      replicate (length X_flat) 0%R) as Hz.
  { intros X_flat. unfold Higuchi.hfd_vals.
    destruct (decide (n_time < 10)%nat); [done|]. cbv zeta.
    destruct (decide (Higuchi.max_k_of kmax n_time < 2)%Z); [done|tauto]. }
  split; [done|].
  intros d a kmaxv kmax0 flating kwargs t b e HX Hk Hclamp Hshape.
  eexists. split.
  - by apply (higuchi_fractal_ok logspace polyfit d a kmaxv kmax0 flating
      kwargs t b e n_time).
  - simpl. by rewrite Hclamp, Hz, reshape2_length.
Qed.

Lemma short_signals_zero_witness :
  ((9 < 10)%nat ∨ (Higuchi.max_k_of 100 9 < 2)%Z) ∧
  Higuchi.hfd_vals Np.logspace_ideal Np.polyfit_ideal 100 9
    [[1; 2; 3; 4; 5; 6; 7; 8; 9]%R] = [0%R].
Proof.
  assert ((9 < 10)%nat ∨ (Higuchi.max_k_of 100 9 < 2)%Z) as H by (left; lia).
  split; [done|].
  exact (proj1 (short_signals_zero Np.logspace_ideal Np.polyfit_ideal 100 9 H)
    [[1; 2; 3; 4; 5; 6; 7; 8; 9]%R]).
Defined.

(** C3.  For a valid input tensor with [T] trials, [B] bands, [E]
    electrodes and [N] time samples (a rank-3 tensor [(T, E, N)] having
    exactly one band), the output has shape [(T, B, E)] in grid layout and
    [(T, B * E)] in flattened layout, holds [T * B * E] values, and has
    one element for each triple (trial, band, electrode). *)
Theorem output_shape (logspace : Z → list R)
    (polyfit : list R → list R → R) (d : gmap string pyval) (a : ndarray)
    (kmaxv : pyval)
    (kmax : Z) (flating : bool) (kwargs : gmap string bool) (T B E N : nat) :
  d !! "X" = Some (PyNdarray a) → as_int kmaxv = Some kmax →
  shape a = [T; B; E; N] ∨ (shape a = [T; E; N] ∧ B = 1%nat) →
  ∃ out,
    Higuchi.higuchi_fractal logspace polyfit (PyDict d) kmaxv flating kwargs =
      Ok (PyDict (<["X" := PyNdarray out]> d)) ∧
    shape out =
      (if Higuchi.effective_flating flating kwargs
       then [T; (B * E)%nat] else [T; B; E]) ∧
    length (data out) = (T * B * E)%nat ∧
    ∀ t b e, (t < T)%nat → (b < B)%nat → (e < E)%nat →
      is_Some (nd_get out
        (if Higuchi.effective_flating flating kwargs
         then [t; (b * E + e)%nat] else [t; b; e])).
Proof.
  intros HX Hk Hshape.
  assert (Higuchi.normalize_shape a = Ok (T, B, E, N)) as Hnorm.
  { unfold Higuchi.normalize_shape.
    destruct Hshape as [->|[-> ->]]; done. }
  eexists. split.
  { by apply (higuchi_fractal_ok logspace polyfit d a kmaxv kmax flating kwargs
      T B E N). }
  simpl. split; [done|].
  assert (length (Higuchi.hfd_vals logspace polyfit (Higuchi.clamp_kmax kmax) N
            (Np.reshape2 (T * B * E) N (data a))) = (T * B * E)%nat) as Hlen.
  { by rewrite hfd_vals_length, reshape2_length. }
  split; [done|].
  intros t b e Ht Hb He.
  destruct (ravel_grid T B E t b e Ht Hb He) as [Hg Hlt].
  pose proof (ravel_flat T B E t b e Ht Hb He) as Hf.
  unfold nd_get.
  destruct (Higuchi.effective_flating flating kwargs); cbn [shape data].
  - rewrite Hf. simpl. apply lookup_lt_is_Some. by rewrite Hlen.
  - rewrite Hg. simpl. apply lookup_lt_is_Some. by rewrite Hlen.
Qed.

Lemma output_shape_witness :
  let a := NdArray [2; 1; 3]%nat [1; 2; 3; 4; 5; 6]%R in
  let d : gmap string pyval := {[ "X" := PyNdarray a ]} in
  d !! "X" = Some (PyNdarray a) ∧
  as_int (PyInt 100) = Some 100%Z ∧
  (shape a = [2; 1; 1; 3]%nat ∨ (shape a = [2; 1; 3]%nat ∧ 1%nat = 1%nat)) ∧
  ∃ out,
    Higuchi.higuchi_fractal Np.logspace_ideal Np.polyfit_ideal (PyDict d)
      (PyInt 100) true ∅ =
      Ok (PyDict (<["X" := PyNdarray out]> d)) ∧
    shape out = [2; 1]%nat ∧
    length (data out) = 2%nat.
Proof.
  intros a d.
  assert (d !! "X" = Some (PyNdarray a)) as H1 by apply lookup_singleton_eq.
  assert (as_int (PyInt 100) = Some 100%Z) as H2 by reflexivity.
  assert (shape a = [2; 1; 1; 3]%nat ∨
          (shape a = [2; 1; 3]%nat ∧ 1%nat = 1%nat)) as H3 by (right; done).
  repeat split; try done.
  destruct (output_shape Np.logspace_ideal Np.polyfit_ideal d a (PyInt 100) 100
    true ∅ 2 1 1 3 H1 H2 H3)
    as (out & Hrun & Hshape & Hlen & _).
  exists out. repeat split; done.
Defined.

(** ** Exceptions *)

Section Exceptions.

Lemma taxonomy_distinct :
  NoDup [InvalidPayloadError; MissingFieldError; InvalidParameterError;
         InvalidTensorTypeError] ∧
  ∀ s, InvalidShapeError s ∉
    [InvalidPayloadError; MissingFieldError; InvalidParameterError;
     InvalidTensorTypeError].
Proof.
  split.
  - repeat (constructor; [rewrite ?elem_of_cons, elem_of_nil;
      unfold InvalidPayloadError, MissingFieldError, InvalidParameterError,
        InvalidTensorTypeError; intuition discriminate|]).
    constructor.
  - intros s. rewrite !elem_of_cons, elem_of_nil.
    unfold InvalidShapeError, InvalidPayloadError, MissingFieldError,
      InvalidParameterError, InvalidTensorTypeError.
    cbn [String.append]. intuition discriminate.
Qed.

Lemma clamp_kmax_below (kmax : Z) :
  (kmax < 2)%Z → Higuchi.clamp_kmax kmax = 2%Z.
Proof. intros Hk. unfold Higuchi.clamp_kmax. by rewrite decide_True. Qed.

Lemma clamp_kmax_two : Higuchi.clamp_kmax 2 = 2%Z.
Proof. done. Qed.

End Exceptions.

Section OtherArrays.

Variable logspace : Z → list R.
Variable polyfit : list R → list R → R.

Implicit Types (d : gmap string pyval) (kwargs : gmap string bool).

(** A call on an array that NumPy cannot average, past the checks. *)
Lemma higuchi_fractal_other d (shp : list nat) (mean_error : exn)
    (kmaxv : pyval) (kmax : Z) (flating : bool) kwargs (t b e n : nat) :
  d !! "X" = Some (PyNdarrayOther shp mean_error) →
  as_int kmaxv = Some kmax →
  Higuchi.normalize_shape (NdArray shp []) = Ok (t, b, e, n) →
  Higuchi.higuchi_fractal logspace polyfit (PyDict d) kmaxv flating kwargs =
    if decide (n < 10 ∨ t * b * e = 0)%nat then
      Ok (PyDict (<["X" := PyNdarray
        (NdArray
           (if Higuchi.effective_flating flating kwargs
            then [t; (b * e)%nat] else [t; b; e])
           (replicate (t * b * e) 0%R))]> d))
    else Raise mean_error.
Proof.
  intros HX Hk Hshape. unfold Higuchi.higuchi_fractal.
  rewrite HX, Hk, Hshape. simpl. unfold Higuchi.hfd_vals_other.
  destruct (decide (n < 10)%nat) as [Hn|Hn].
  { rewrite decide_True by (by left). simpl.
    by destruct (Higuchi.effective_flating flating kwargs). }
  assert (2 ≤ Higuchi.max_k_of (Higuchi.clamp_kmax kmax) n)%Z as Hmax.
  { apply max_k_of_ge_2; [lia|].
    unfold Higuchi.clamp_kmax. case_decide; lia. }
  rewrite decide_False by lia.
  destruct (decide (t * b * e = 0)%nat) as [Hz|Hz].
  - rewrite decide_True by (by right). simpl. rewrite Hz. simpl.
    by destruct (Higuchi.effective_flating flating kwargs).
  - rewrite decide_False by tauto. done.
Qed.

End OtherArrays.

(** C5.  The call raises on structurally malformed arguments: a payload
    that is not a dictionary raises [InvalidPayloadError]; a dictionary
    without the key ['X'] raises [MissingFieldError]; a [kmax] that is not
    an integer raises [InvalidParameterError]; an ['X'] that is not an
    [np.ndarray] raises [InvalidTensorTypeError]; an array of rank other
    than 3 or 4, whatever its dtype, raises [InvalidShapeError] naming its
    shape; and an integer [kmax] below 2 is not refused but behaves as
    [kmax = 2].  The five exceptions are pairwise different.  The tensor
    check looks at the type only, not at the dtype: an array that NumPy
    cannot average, of rank 3 or 4, is not refused; the call on it returns
    zeros when [N < 10] or when it holds no signal, and otherwise ends in
    the exception that [sig.mean()] raises on its first row.  With an array
    of doubles of rank 3 or 4 (and switches that are booleans) the call
    returns. *)
Theorem error_taxonomy (logspace : Z → list R)
    (polyfit : list R → list R → R) (kmaxv : pyval) (flating : bool)
    (kwargs : gmap string bool) :
  let run eegdata :=
    Higuchi.higuchi_fractal logspace polyfit eegdata kmaxv flating kwargs in
  (∀ v, (∀ d, v ≠ PyDict d) → run v = Raise InvalidPayloadError) ∧
  (∀ d, d !! "X" = None → run (PyDict d) = Raise MissingFieldError) ∧
  (∀ d X, d !! "X" = Some X → as_int kmaxv = None →
     run (PyDict d) = Raise InvalidParameterError) ∧
  (∀ d X, d !! "X" = Some X → is_Some (as_int kmaxv) →
     (∀ a, X ≠ PyNdarray a) → (∀ shp err, X ≠ PyNdarrayOther shp err) →
     run (PyDict d) = Raise InvalidTensorTypeError) ∧
  (∀ d a, d !! "X" = Some (PyNdarray a) → is_Some (as_int kmaxv) →
     length (shape a) ≠ 3%nat → length (shape a) ≠ 4%nat →
     run (PyDict d) = Raise (InvalidShapeError (shape a))) ∧
  (∀ d shp err, d !! "X" = Some (PyNdarrayOther shp err) →
     is_Some (as_int kmaxv) →
     length shp ≠ 3%nat → length shp ≠ 4%nat →
     run (PyDict d) = Raise (InvalidShapeError shp)) ∧
  (∀ d a, d !! "X" = Some (PyNdarray a) → is_Some (as_int kmaxv) →
     (length (shape a) = 3 ∨ length (shape a) = 4)%nat →
     ∃ out, run (PyDict d) = Ok (PyDict (<["X" := PyNdarray out]> d))) ∧
  (∀ d shp err T B E N, d !! "X" = Some (PyNdarrayOther shp err) →
     is_Some (as_int kmaxv) →
     Higuchi.normalize_shape (NdArray shp []) = Ok (T, B, E, N) →
     ((N < 10 ∨ T * B * E = 0)%nat →
        ∃ out, run (PyDict d) = Ok (PyDict (<["X" := PyNdarray out]> d)) ∧
               data out = replicate (T * B * E) 0%R) ∧
     ((10 ≤ N)%nat → (T * B * E ≠ 0)%nat → run (PyDict d) = Raise err)) ∧
  (∀ eegdata kmax, (kmax < 2)%Z →
     Higuchi.higuchi_fractal logspace polyfit eegdata (PyInt kmax) flating kwargs =
     Higuchi.higuchi_fractal logspace polyfit eegdata (PyInt 2) flating kwargs) ∧
  NoDup [InvalidPayloadError; MissingFieldError; InvalidParameterError;
         InvalidTensorTypeError] ∧
  (∀ s, InvalidShapeError s ∉
     [InvalidPayloadError; MissingFieldError; InvalidParameterError;
      InvalidTensorTypeError]).
Proof.
  intros run. unfold run.
  split.
  { intros v Hv. destruct v; try done. by destruct (Hv d). }
  split.
  { intros d HX. unfold Higuchi.higuchi_fractal. by rewrite HX. }
  split.
  { intros d X HX Hk. unfold Higuchi.higuchi_fractal. by rewrite HX, Hk. }
  split.
  { intros d X HX [kmax Hk] Harr Hother. unfold Higuchi.higuchi_fractal.
    rewrite HX, Hk. destruct X; try done.
    - by destruct (Harr a).
    - by destruct (Hother shp mean_error). }
  split.
  { intros d a HX [kmax Hk] H3 H4. unfold Higuchi.higuchi_fractal.
    rewrite HX, Hk, (normalize_shape_bad a H3 H4). done. }
  split.
  { intros d shp err HX [kmax Hk] H3 H4. unfold Higuchi.higuchi_fractal.
    rewrite HX, Hk, (normalize_shape_bad (NdArray shp []) H3 H4). done. }
  split.
  { intros d a HX [kmax Hk] Hrank.
    destruct (normalize_shape_ok a Hrank) as (t & b & e & n & Hshape).
    eexists.
    by apply (higuchi_fractal_ok logspace polyfit d a kmaxv kmax flating
                kwargs t b e n). }
  split.
  { intros d shp err T B E N HX [kmax Hk] Hshape.
    rewrite (higuchi_fractal_other logspace polyfit d shp err kmaxv kmax
               flating kwargs T B E N HX Hk Hshape).
    split.
    - intros Hzero. rewrite decide_True by done. by eexists.
    - intros HN Hrows. rewrite decide_False by lia. done. }
  split.
  { intros eegdata kmax Hk. unfold Higuchi.higuchi_fractal. simpl.
    by rewrite (clamp_kmax_below kmax Hk), clamp_kmax_two. }
  apply taxonomy_distinct.
Qed.

Lemma error_taxonomy_witness :
  let run eegdata kmaxv :=
    Higuchi.higuchi_fractal Np.logspace_ideal Np.polyfit_ideal eegdata kmaxv
      false ∅ in
  run PyNone (PyInt 100) = Raise InvalidPayloadError ∧
  run (PyDict ∅) (PyInt 100) = Raise MissingFieldError ∧
  run (PyDict {[ "X" := PyNone ]}) (PyFloat 3) = Raise InvalidParameterError ∧
  run (PyDict {[ "X" := PyNone ]}) (PyInt 100) = Raise InvalidTensorTypeError ∧
  run (PyDict {[ "X" := PyNdarray (NdArray [2; 3]%nat [1; 2; 3; 4; 5; 6]%R) ]})
    (PyInt 100) = Raise (InvalidShapeError [2; 3]%nat).
Proof.
  intros run.
  destruct (error_taxonomy Np.logspace_ideal Np.polyfit_ideal (PyInt 100)
              false ∅) as (H1 & H2 & _ & H4 & H5 & _).
  destruct (error_taxonomy Np.logspace_ideal Np.polyfit_ideal (PyFloat 3)
              false ∅) as (_ & _ & H3 & _).
  split; [by apply H1|].
  split; [by apply H2|].
  split; [by apply (H3 _ PyNone); [apply lookup_singleton_eq|]|].
  split; [by apply (H4 _ PyNone); [apply lookup_singleton_eq|eexists| |]|].
  apply (H5 _ (NdArray [2; 3]%nat [1; 2; 3; 4; 5; 6]%R));
    [apply lookup_singleton_eq|by eexists|simpl; lia..].
Defined.

(** An array of strings is an [np.ndarray] but not a numeric array.  With
    3 time samples the call on it returns zeros instead of raising
    [InvalidTensorTypeError]; with 12 time samples it ends in NumPy's
    [TypeError], which is none of the five exceptions, although the call
    is not structurally malformed in the sense of the taxonomy. *)
Lemma non_numeric_array_not_refused :
  let err := TypeError "cannot perform reduce with flexible type" in
  let run shp :=
    Higuchi.higuchi_fractal Np.logspace_ideal Np.polyfit_ideal
      (PyDict {[ "X" := PyNdarrayOther shp err ]}) (PyInt 100) false ∅ in
  run [1; 1; 3]%nat =
    Ok (PyDict {[ "X" := PyNdarray (NdArray [1; 1; 1]%nat [0%R]) ]}) ∧
  run [1; 1; 3]%nat ≠ Raise InvalidTensorTypeError ∧
  run [1; 1; 12]%nat = Raise err ∧
  (err ∉ [InvalidPayloadError; MissingFieldError; InvalidParameterError;
          InvalidTensorTypeError]) ∧
  (∀ s, err ≠ InvalidShapeError s).
Proof.
  intros err run.
  assert (run [1; 1; 3]%nat =
    Ok (PyDict {[ "X" := PyNdarray (NdArray [1; 1; 1]%nat [0%R]) ]})) as H1.
  { unfold run.
    rewrite (higuchi_fractal_other _ _ _ [1; 1; 3]%nat err (PyInt 100) 100
               false ∅ 1 1 1 3); [|apply lookup_singleton_eq|done..].
    rewrite decide_True by (left; lia). by rewrite insert_singleton_eq. }
  split; [exact H1|]. split; [by rewrite H1|].
  split.
  { unfold run.
    rewrite (higuchi_fractal_other _ _ _ [1; 1; 12]%nat err (PyInt 100) 100
               false ∅ 1 1 1 12); [|apply lookup_singleton_eq|done..].
    by rewrite decide_False by lia. }
  split.
  - rewrite !elem_of_cons, elem_of_nil.
    unfold err, InvalidPayloadError, MissingFieldError, InvalidParameterError,
      InvalidTensorTypeError. intuition discriminate.
  - intros s. unfold err, InvalidShapeError. discriminate.
Qed.

(** C9.  When the legacy switch is supplied, the effective flag is the
    logical OR of the two switches (and the primary switch alone
    otherwise).  A call with the primary switch true returns what a call
    with the legacy switch true returns.  For a valid input the flattened
    output at position [(t, b * E + e)] is the grid output at position
    [(t, b, e)].  The keyword [flating] binds to the named parameter, so it
    is not among the extra keyword arguments. *)
Theorem flatten_switches (logspace : Z → list R)
    (polyfit : list R → list R → R) (eegdata kmaxv : pyval) (flating : bool)
    (kwargs : gmap string bool) :
  kwargs !! "flating" = None →
  Higuchi.effective_flating flating kwargs =
    flating || default false (kwargs !! "flattening") ∧
  Higuchi.higuchi_fractal logspace polyfit eegdata kmaxv true ∅ =
    Higuchi.higuchi_fractal logspace polyfit eegdata kmaxv false
      {[ "flattening" := true ]} ∧
  ∀ (d : gmap string pyval) (a : ndarray) (kmax : Z) (T B E N : nat),
    eegdata = PyDict d → d !! "X" = Some (PyNdarray a) →
    as_int kmaxv = Some kmax → Higuchi.normalize_shape a = Ok (T, B, E, N) →
    ∃ grid flat,
      Higuchi.higuchi_fractal logspace polyfit eegdata kmaxv false ∅ =
        Ok (PyDict (<["X" := PyNdarray grid]> d)) ∧
      Higuchi.higuchi_fractal logspace polyfit eegdata kmaxv true ∅ =
        Ok (PyDict (<["X" := PyNdarray flat]> d)) ∧
      shape grid = [T; B; E] ∧ shape flat = [T; (B * E)%nat] ∧
      ∀ t b e, (t < T)%nat → (b < B)%nat → (e < E)%nat →
        nd_get flat [t; (b * E + e)%nat] = nd_get grid [t; b; e] ∧
        is_Some (nd_get grid [t; b; e]).
Proof.
  intros Hkw. split.
  { unfold Higuchi.effective_flating. rewrite Hkw.
    destruct (kwargs !! "flattening"); simpl; [done|].
    by rewrite orb_false_r. }
  split.
  { unfold Higuchi.higuchi_fractal.
    replace (Higuchi.effective_flating false {[ "flattening" := true ]})
      with (Higuchi.effective_flating true ∅); [done|].
    unfold Higuchi.effective_flating.
    rewrite lookup_singleton_eq, lookup_singleton_ne by done.
    by rewrite !lookup_empty. }
  intros d a kmax T B E N -> HX Hk Hshape.
  eexists _, _.
  split.
  { by apply (higuchi_fractal_ok logspace polyfit d a kmaxv kmax false ∅
                T B E N). }
  split.
  { by apply (higuchi_fractal_ok logspace polyfit d a kmaxv kmax true ∅
                T B E N). }
  replace (Higuchi.effective_flating false ∅) with false
    by (unfold Higuchi.effective_flating; by rewrite !lookup_empty).
  replace (Higuchi.effective_flating true ∅) with true
    by (unfold Higuchi.effective_flating; by rewrite !lookup_empty).
  split; [done|]. split; [done|].
  intros t b e Ht Hb He.
  destruct (ravel_grid T B E t b e Ht Hb He) as [Hg Hlt].
  pose proof (ravel_flat T B E t b e Ht Hb He) as Hf.
  unfold nd_get. cbn [shape data]. rewrite Hg, Hf. simpl.
  split; [done|].
  apply lookup_lt_is_Some. by rewrite hfd_vals_length, reshape2_length.
Qed.

Lemma flatten_switches_witness :
  let eegdata :=
    PyDict {[ "X" := PyNdarray (NdArray [2; 1; 3]%nat [1; 2; 3; 4; 5; 6]%R) ]} in
  (∅ : gmap string bool) !! "flating" = None ∧
  Higuchi.higuchi_fractal Np.logspace_ideal Np.polyfit_ideal eegdata
    (PyInt 100) true ∅ =
    Higuchi.higuchi_fractal Np.logspace_ideal Np.polyfit_ideal eegdata
      (PyInt 100) false {[ "flattening" := true ]}.
Proof.
  intros eegdata.
  assert ((∅ : gmap string bool) !! "flating" = None) as H
    by apply lookup_empty.
  split; [done|].
  exact (proj1 (proj2
    (flatten_switches Np.logspace_ideal Np.polyfit_ideal eegdata (PyInt 100)
       false ∅ H))).
Defined.

(** ** Worked examples *)

Section Examples.

Ltac eval_abs :=
  repeat match goal with
  | |- context [Rabs ?x] =>
      first [ rewrite (Rabs_pos_eq x) by lra | rewrite (Rabs_left1 x) by lra ]
  end.

(** A last sample that falls just below 50 casts to 49: whether the scale
    set ends at [max_k] or at [max_k - 1] is decided by the last bit of
    the double. *)
Example cast_just_below : Np.astype_int (50 - 1 / 10 ^ 14) = 49%Z.
Proof.
  unfold Np.astype_int.
  destruct (Rle_dec 0 (50 - 1 / 10 ^ 14)) as [_|Hneg]; [|exfalso; lra].
  symmetry. apply Int_part_spec. lra.
Qed.

Example unique_sorts_and_dedups :
  Np.unique [1; 1; 1; 1; 2; 2; 3; 4; 4; 6]%Z = [1; 2; 3; 4; 6]%Z.
Proof. reflexivity. Qed.

Example arange_1_10_3 : Np.arange 1 10 3 = [1; 4; 7]%nat.
Proof. reflexivity. Qed.

Example arange_4_10_5 : Np.arange 4 10 5 = [4; 9]%nat.
Proof. reflexivity. Qed.

(** Scale 2 on a signal of 10 samples: offset 0 reads five equal samples,
    offset 1 reads [1, 1, 1, 1, 3]. *)
Example Lk_scale_2 :
  Higuchi.Lk [0; 1; 0; 1; 0; 1; 0; 1; 0; 3]%R 10 2 = (9 / 8)%R.
Proof.
  unfold Higuchi.Lk, Higuchi.offset_loop, Higuchi.offset_step. simpl.
  eval_abs. rewrite ?minus_IZR, ?mult_IZR, <- ?INR_IZR_INZ. simpl INR. lra.
Qed.

Example spec_Lk_scale_2 :
  Spec.Lk [0; 1; 0; 1; 0; 1; 0; 1; 0; 3]%R 2 = (9 / 8)%R.
Proof.
  unfold Spec.Lk, Spec.qualifying_offsets, Spec.L. simpl.
  eval_abs. lra.
Qed.

(** A scale above the signal length leaves no qualifying offset: the loop
    ends with [count = 0] and the stored ordinate is 0. *)
Example lk_entry_without_offsets :
  Higuchi.offset_loop [1; 2; 3]%R 3 5 = (0%R, 0%nat) ∧
  Higuchi.lk_entry [1; 2; 3]%R 3 5 = Finite 0.
Proof. split; reflexivity. Qed.

Example shape_error_message :
  InvalidShapeError [2; 3]%nat =
    ValueError "Unsupported shape for higuchi_fractal: (2, 3). Expected 3D (trials, electrodes, time) or 4D (trials, bands, electrodes, time).".
Proof. reflexivity. Qed.

Example clamped_kmax_runs :
  Higuchi.clamp_kmax 1 = 2%Z ∧ Higuchi.max_k_of (Higuchi.clamp_kmax 1) 100 = 2%Z.
Proof. split; reflexivity. Qed.

End Examples.

(** * Further properties of the extractor *)

(** ** Calls: what is returned, what is kept, what is ignored *)

Section CallFacts.

Variable logspace : Z → list R.
Variable polyfit : list R → list R → R.

Implicit Types (d : gmap string pyval) (a : ndarray) (kwargs : gmap string bool).

(** A call returns only through the last line of the function: the
    argument is a dictionary, and the result is that dictionary with an
    array of doubles under ['X']. *)
Lemma higuchi_fractal_inv (eegdata kmaxv : pyval) (flating : bool) kwargs
    (v : pyval) :
  Higuchi.higuchi_fractal logspace polyfit eegdata kmaxv flating kwargs = Ok v →
  ∃ d X kmax out,
    eegdata = PyDict d ∧ d !! "X" = Some X ∧ as_int kmaxv = Some kmax ∧
    v = PyDict (<["X" := PyNdarray out]> d).
Proof.
  intros Hrun.
  destruct eegdata as [| | | | | | |d]; try done.
  unfold Higuchi.higuchi_fractal in Hrun.
  destruct (d !! "X") as [X|] eqn:HX; [|done].
  destruct (as_int kmaxv) as [kmax|] eqn:Hk; [|done].
  destruct X as [| | | | |a|shp err|]; try done.
  - destruct (Higuchi.normalize_shape a) as [[[[t b] e] n]|err]; [|done].
    simpl in Hrun. injection Hrun as <-. by eexists d, _, kmax, _.
  - destruct (Higuchi.normalize_shape (NdArray shp [])) as [[[[t b] e] n]|?];
      [|done].
    simpl in Hrun.
    destruct (Higuchi.hfd_vals_other _ _ _ _) as [vals|?]; [|done].
    simpl in Hrun. injection Hrun as <-. by eexists d, _, kmax, _.
Qed.

(** The call reads [kwargs] only through the effective flag. *)
Lemma higuchi_fractal_flag (eegdata kmaxv : pyval) (f f' : bool) kwargs kwargs' :
  Higuchi.effective_flating f kwargs = Higuchi.effective_flating f' kwargs' →
  Higuchi.higuchi_fractal logspace polyfit eegdata kmaxv f kwargs =
  Higuchi.higuchi_fractal logspace polyfit eegdata kmaxv f' kwargs'.
Proof. intros Heq. unfold Higuchi.higuchi_fractal. by rewrite Heq. Qed.

Lemma clamp_kmax_ge_2 (kmax : Z) : (2 ≤ Higuchi.clamp_kmax kmax)%Z.
Proof. unfold Higuchi.clamp_kmax. case_decide; lia. Qed.

Lemma reshape2_lookup (rows cols : nat) (l : list R) (i : nat) :
  (i < rows)%nat →
  Np.reshape2 rows cols l !! i = Some (firstn cols (skipn (i * cols) l)).
Proof.
  intros Hi. unfold Np.reshape2.
  change (map ?f ?x) with (f <$> x).
  rewrite list_lookup_fmap, lookup_seq_lt by done. done.
Qed.

Lemma reshape2_cons (rows cols : nat) (l : list R) :
  Np.reshape2 (S rows) cols l =
    firstn cols l :: Np.reshape2 rows cols (skipn cols l).
Proof.
  unfold Np.reshape2. rewrite <- cons_seq. simpl. f_equal.
  rewrite <- fmap_S_seq.
  change (map ?f (S <$> ?x)) with (f <$> (S <$> x)).
  rewrite <- list_fmap_compose. apply list_fmap_ext. intros _ i _. simpl.
  change (skipn ?n ?x) with (drop n x).
  by rewrite drop_drop, Nat.add_comm.
Qed.

End CallFacts.

(** X1.  A rank-3 array [(T, E, N)] gives the same result, values, shape
    and errors alike, as the rank-4 array [(T, 1, E, N)] with the same
    data. *)
Theorem rank3_is_single_band (logspace : Z → list R)
    (polyfit : list R → list R → R) (d : gmap string pyval) (a : ndarray)
    (kmaxv : pyval) (flating : bool) (kwargs : gmap string bool) (T E N : nat) :
  shape a = [T; E; N] →
  Higuchi.higuchi_fractal logspace polyfit (PyDict (<["X" := PyNdarray a]> d))
    kmaxv flating kwargs =
  Higuchi.higuchi_fractal logspace polyfit
    (PyDict (<["X" := PyNdarray (NdArray [T; 1%nat; E; N] (data a))]> d))
    kmaxv flating kwargs.
Proof.
  intros Hshape. unfold Higuchi.higuchi_fractal.
  rewrite !lookup_insert_eq.
  destruct (as_int kmaxv) as [kmax|]; [|done].
  unfold Higuchi.normalize_shape. rewrite Hshape. simpl.
  by rewrite !insert_insert_eq.
Qed.

Lemma rank3_is_single_band_witness :
  let a := NdArray [2; 1; 3]%nat [1; 2; 3; 4; 5; 6]%R in
  shape a = [2; 1; 3]%nat ∧
  Higuchi.higuchi_fractal Np.logspace_ideal Np.polyfit_ideal
    (PyDict (<["X" := PyNdarray a]> ∅)) (PyInt 100) true ∅ =
  Higuchi.higuchi_fractal Np.logspace_ideal Np.polyfit_ideal
    (PyDict (<["X" := PyNdarray (NdArray [2; 1; 1; 3]%nat (data a))]> ∅))
    (PyInt 100) true ∅.
Proof.
  intros a. split; [reflexivity|].
  apply (rank3_is_single_band Np.logspace_ideal Np.polyfit_ideal ∅ a
           (PyInt 100) true ∅ 2 1 3).
  reflexivity.
Defined.

(** X2.  A call that returns hands back a dictionary with the same keys as
    its argument: ['X'] now holds an array, and every other key holds what
    it held before. *)
Theorem other_keys_preserved (logspace : Z → list R)
    (polyfit : list R → list R → R) (d : gmap string pyval) (kmaxv : pyval)
    (flating : bool) (kwargs : gmap string bool) (v : pyval) :
  Higuchi.higuchi_fractal logspace polyfit (PyDict d) kmaxv flating kwargs = Ok v →
  ∃ d' out,
    v = PyDict d' ∧ d' !! "X" = Some (PyNdarray out) ∧
    (∀ key, key ≠ "X" → d' !! key = d !! key) ∧
    dom d' = dom d.
Proof.
  intros Hrun.
  destruct (higuchi_fractal_inv logspace polyfit _ _ _ _ _ Hrun)
    as (d0 & X & kmax & out & Hd & HX & _ & ->).
  injection Hd as <-.
  eexists _, _. split; [done|].
  split; [by rewrite lookup_insert_eq|].
  split; [intros key Hkey; by rewrite lookup_insert_ne|].
  rewrite dom_insert_L.
  apply (elem_of_dom_2 (D:=gset string)) in HX.
  by apply subseteq_union_1_L, singleton_subseteq_l.
Qed.

Lemma other_keys_preserved_witness :
  let a := NdArray [1; 1; 2]%nat [1; 2]%R in
  let d : gmap string pyval := {[ "X" := PyNdarray a; "y" := PyInt 7 ]} in
  ∃ v, Higuchi.higuchi_fractal Np.logspace_ideal Np.polyfit_ideal (PyDict d)
    (PyInt 100) false ∅ = Ok v ∧
  ∃ d', v = PyDict d' ∧ d' !! "y" = Some (PyInt 7).
Proof.
  intros a d.
  destruct (Higuchi.higuchi_fractal Np.logspace_ideal Np.polyfit_ideal
    (PyDict d) (PyInt 100) false ∅) as [v|e]
    eqn:Hrun; [|by vm_compute in Hrun].
  exists v. split; [done|].
  destruct (other_keys_preserved Np.logspace_ideal Np.polyfit_ideal d
    (PyInt 100) false ∅ v Hrun)
    as (d' & out & -> & _ & Hkeys & _).
  exists d'. split; [done|]. by rewrite Hkeys.
Defined.

(** X3.  Feeding a result back into the extractor.  A flattened result has
    rank 2 and is refused with the shape error naming [(T, B*E)].  A grid
    result [(T, B, E)] has rank 3 and is accepted, read as [T] trials of
    [B] electrodes over [E] time samples: the second result has one band
    and [B] electrodes. *)
Theorem second_call (logspace : Z → list R)
    (polyfit : list R → list R → R) (d : gmap string pyval) (a : ndarray)
    (kmaxv kmaxv' : pyval)
    (kmax kmax' : Z) (flating flating' : bool)
    (kwargs kwargs' : gmap string bool) (T B E N : nat) :
  d !! "X" = Some (PyNdarray a) → as_int kmaxv = Some kmax →
  Higuchi.normalize_shape a = Ok (T, B, E, N) →
  as_int kmaxv' = Some kmax' →
  ∃ v, Higuchi.higuchi_fractal logspace polyfit (PyDict d) kmaxv flating
    kwargs = Ok v ∧
    if Higuchi.effective_flating flating kwargs then
      Higuchi.higuchi_fractal logspace polyfit v kmaxv' flating' kwargs' =
        Raise (InvalidShapeError [T; (B * E)%nat])
    else
      ∃ out, Higuchi.higuchi_fractal logspace polyfit v kmaxv' flating' kwargs' =
               Ok (PyDict (<["X" := PyNdarray out]> d)) ∧
        shape out =
          (if Higuchi.effective_flating flating' kwargs'
           then [T; (1 * B)%nat] else [T; 1%nat; B]) ∧
        length (data out) = (T * B)%nat.
Proof.
  intros HX Hk Hs Hk'.
  eexists. split.
  { by apply (higuchi_fractal_ok logspace polyfit d a kmaxv kmax flating kwargs
      T B E N). }
  destruct (Higuchi.effective_flating flating kwargs).
  - unfold Higuchi.higuchi_fractal. by rewrite lookup_insert_eq, Hk'.
  - eexists. split.
    + erewrite (higuchi_fractal_ok logspace polyfit _ _ kmaxv' kmax' flating'
        kwargs' T 1 B E);
        [|by rewrite lookup_insert_eq|done|done].
      by rewrite insert_insert_eq.
    + simpl. split; [done|].
      rewrite hfd_vals_length, reshape2_length. lia.
Qed.

Lemma second_call_witness :
  let a := NdArray [2; 1; 3]%nat [1; 2; 3; 4; 5; 6]%R in
  let d : gmap string pyval := {[ "X" := PyNdarray a ]} in
  d !! "X" = Some (PyNdarray a) ∧
  as_int (PyInt 100) = Some 100%Z ∧
  Higuchi.normalize_shape a = Ok (2, 1, 1, 3)%nat ∧
  ∃ v, Higuchi.higuchi_fractal Np.logspace_ideal Np.polyfit_ideal (PyDict d)
    (PyInt 100) true ∅ = Ok v ∧
       Higuchi.higuchi_fractal Np.logspace_ideal Np.polyfit_ideal v (PyInt 100)
         true ∅ =
         Raise (InvalidShapeError [2; 1]%nat).
Proof.
  intros a d.
  assert (d !! "X" = Some (PyNdarray a)) as H1 by apply lookup_singleton_eq.
  assert (as_int (PyInt 100) = Some 100%Z) as H2 by reflexivity.
  assert (Higuchi.normalize_shape a = Ok (2, 1, 1, 3)%nat) as H3 by reflexivity.
  repeat split; try done.
  exact (second_call Np.logspace_ideal Np.polyfit_ideal d a (PyInt 100)
    (PyInt 100) 100 100 true true ∅ ∅
           2 1 1 3 H1 H2 H3 H2).
Defined.

(** X4.  What an output element is.  For an array [(T, B, E, N)] holding
    [T * B * E * N] values, the output element of (trial [t], band [b],
    electrode [e]) is 0 when [N < 10] and otherwise the value of the
    per-signal loop on the [N] consecutive samples of that channel, with
    the scale set obtained for [min(max(kmax, 2), N // 2)]; the
    [max_k < 2] branch plays no part. *)
Theorem output_element_is_channel_hfd (logspace : Z → list R)
    (polyfit : list R → list R → R) (d : gmap string pyval) (a : ndarray)
    (kmaxv : pyval) (kmax : Z) (flating : bool) (kwargs : gmap string bool)
    (T B E N t b e : nat) :
  d !! "X" = Some (PyNdarray a) → as_int kmaxv = Some kmax →
  shape a = [T; B; E; N] → length (data a) = (T * B * E * N)%nat →
  (t < T)%nat → (b < B)%nat → (e < E)%nat →
  let channel := firstn N (skipn (((t * B + b) * E + e) * N) (data a)) in
  let scales :=
    Higuchi.scales_of logspace (Higuchi.max_k_of (Higuchi.clamp_kmax kmax) N) in
  length channel = N ∧
  ∃ out,
    Higuchi.higuchi_fractal logspace polyfit (PyDict d) kmaxv flating kwargs =
      Ok (PyDict (<["X" := PyNdarray out]> d)) ∧
    nd_get out
      (if Higuchi.effective_flating flating kwargs
       then [t; (b * E + e)%nat] else [t; b; e]) =
      Some (if decide (N < 10)%nat then 0%R
            else Higuchi.hfd_signal polyfit scales N channel).
Proof.
  intros HX Hk Hshape Hlen Ht Hb He channel scales.
  destruct (ravel_grid T B E t b e Ht Hb He) as [Hg Hlt].
  pose proof (ravel_flat T B E t b e Ht Hb He) as Hf.
  set (off := ((t * B + b) * E + e)%nat) in *.
  split.
  { unfold channel. rewrite length_firstn, length_skipn, Hlen.
    assert ((off + 1) * N ≤ T * B * E * N)%nat
      by (apply Nat.mul_le_mono_r; lia).
    lia. }
  assert (Higuchi.normalize_shape a = Ok (T, B, E, N)) as Hs.
  { unfold Higuchi.normalize_shape. by rewrite Hshape. }
  eexists. split.
  { by apply (higuchi_fractal_ok logspace polyfit d a kmaxv kmax flating kwargs
      T B E N). }
  assert (Higuchi.hfd_vals logspace polyfit (Higuchi.clamp_kmax kmax) N
            (Np.reshape2 (T * B * E) N (data a)) !! off =
          Some (if decide (N < 10)%nat then 0%R
                else Higuchi.hfd_signal polyfit scales N channel)) as Hval.
  { rewrite (hfd_vals_lookup logspace polyfit _ _ _ off channel)
      by (by apply reshape2_lookup).
    destruct (decide (N < 10)%nat); [done|].
    pose proof (max_k_of_ge_2 (Higuchi.clamp_kmax kmax) N ltac:(lia)
                  (clamp_kmax_ge_2 kmax)).
    by rewrite decide_False by lia. }
  unfold nd_get.
  destruct (Higuchi.effective_flating flating kwargs); cbn [shape data].
  - by rewrite Hf.
  - by rewrite Hg.
Qed.

Lemma output_element_is_channel_hfd_witness :
  let sig := [0; 1; 0; 1; 0; 1; 0; 1; 0; 3]%R in
  let a := NdArray [1; 1; 1; 10]%nat sig in
  let d : gmap string pyval := {[ "X" := PyNdarray a ]} in
  d !! "X" = Some (PyNdarray a) ∧
  length (data a) = (1 * 1 * 1 * 10)%nat ∧
  ∃ out,
    Higuchi.higuchi_fractal Np.logspace_ideal Np.polyfit_ideal (PyDict d)
      (PyInt 100) false ∅ = Ok (PyDict (<["X" := PyNdarray out]> d)) ∧
    nd_get out [0; 0; 0]%nat =
      Some (Higuchi.hfd_signal Np.polyfit_ideal
              (Higuchi.scales_of Np.logspace_ideal 5) 10 sig).
Proof.
  intros sig a d.
  assert (d !! "X" = Some (PyNdarray a)) as H1 by apply lookup_singleton_eq.
  assert (length (data a) = (1 * 1 * 1 * 10)%nat) as H2 by reflexivity.
  split; [exact H1|]. split; [exact H2|].
  destruct (output_element_is_channel_hfd Np.logspace_ideal Np.polyfit_ideal
              d a (PyInt 100) 100 false ∅ 1 1 1 10 0 0 0 H1 eq_refl eq_refl H2
              ltac:(lia) ltac:(lia) ltac:(lia)) as (_ & out & Hrun & Hget).
  exists out. split; [exact Hrun|]. exact Hget.
Defined.

(** X5.  The rows of [X.reshape(trials * bands * electrodes, time)]: each
    has [time] samples, and laid end to end they are the data of the
    array again. *)
Theorem reshape_rows_round_trip (rows cols : nat) (l : list R) :
  length l = (rows * cols)%nat →
  Forall (λ row, length row = cols) (Np.reshape2 rows cols l) ∧
  concat (Np.reshape2 rows cols l) = l.
Proof.
  revert l. induction rows as [|rows IH]; intros l Hlen.
  - simpl in Hlen. apply length_zero_iff_nil in Hlen as ->. by split.
  - rewrite reshape2_cons.
    destruct (IH (skipn cols l)) as [IH1 IH2].
    { rewrite length_skipn. lia. }
    split.
    + constructor; [|done]. rewrite length_firstn. lia.
    + simpl. rewrite IH2. apply firstn_skipn.
Qed.

Lemma reshape_rows_round_trip_witness :
  length [1; 2; 3; 4; 5; 6]%R = (2 * 3)%nat ∧
  concat (Np.reshape2 2 3 [1; 2; 3; 4; 5; 6]%R) = [1; 2; 3; 4; 5; 6]%R.
Proof.
  split; [reflexivity|].
  exact (proj2 (reshape_rows_round_trip 2 3 [1; 2; 3; 4; 5; 6]%R eq_refl)).
Defined.

(** X6.  Signals do not influence one another: the value stored for row
    [i] is the same in any two batches that agree on row [i]. *)
Theorem batch_rows_independent (logspace : Z → list R)
    (polyfit : list R → list R → R) (kmax : Z) (n_time : nat)
    (X_flat X_flat' : list (list R)) (i : nat) (sig : list R) :
  X_flat !! i = Some sig → X_flat' !! i = Some sig →
  Higuchi.hfd_vals logspace polyfit kmax n_time X_flat !! i =
  Higuchi.hfd_vals logspace polyfit kmax n_time X_flat' !! i.
Proof.
  intros Hi Hi'.
  by rewrite (hfd_vals_lookup logspace polyfit kmax n_time X_flat i sig Hi),
             (hfd_vals_lookup logspace polyfit kmax n_time X_flat' i sig Hi').
Qed.

Lemma batch_rows_independent_witness :
  let sig := [0; 1; 0; 1; 0; 1; 0; 1; 0; 3]%R in
  let other := [5; 4; 3; 2; 1; 0; 1; 2; 3; 4]%R in
  [sig] !! 0%nat = Some sig ∧ [sig; other] !! 0%nat = Some sig ∧
  Higuchi.hfd_vals Np.logspace_ideal Np.polyfit_ideal 100 10 [sig] !! 0%nat =
  Higuchi.hfd_vals Np.logspace_ideal Np.polyfit_ideal 100 10 [sig; other] !! 0%nat.
Proof.
  intros sig other. split; [reflexivity|]. split; [reflexivity|].
  apply (batch_rows_independent Np.logspace_ideal Np.polyfit_ideal 100 10 [sig]
    [sig; other] 0 sig); reflexivity.
Defined.

(** X7.  [kmax] saturates at [N // 2]: any two values of [kmax] at or
    above [N // 2] give the same [hfd_vals]. *)
Theorem kmax_saturates (logspace : Z → list R)
    (polyfit : list R → list R → R) (kmax kmax' : Z) (n_time : nat)
    (X_flat : list (list R)) :
  (Z.of_nat (n_time / 2) ≤ kmax)%Z → (Z.of_nat (n_time / 2) ≤ kmax')%Z →
  Higuchi.hfd_vals logspace polyfit kmax n_time X_flat =
    Higuchi.hfd_vals logspace polyfit kmax' n_time X_flat.
Proof.
  intros Hk Hk'. unfold Higuchi.hfd_vals, Higuchi.max_k_of.
  by rewrite !Z.min_r by done.
Qed.

Lemma kmax_saturates_witness :
  (Z.of_nat (12 / 2) ≤ 100)%Z ∧ (Z.of_nat (12 / 2) ≤ 6)%Z ∧
  Higuchi.hfd_vals Np.logspace_ideal Np.polyfit_ideal 100 12 [replicate 12 1%R] =
  Higuchi.hfd_vals Np.logspace_ideal Np.polyfit_ideal 6 12 [replicate 12 1%R].
Proof.
  assert (Z.of_nat (12 / 2) ≤ 100)%Z as H1 by (vm_compute; discriminate).
  assert (Z.of_nat (12 / 2) ≤ 6)%Z as H2 by (vm_compute; discriminate).
  split; [exact H1|]. split; [exact H2|].
  exact (kmax_saturates Np.logspace_ideal Np.polyfit_ideal 100 6 12
    [replicate 12 1%R] H1 H2).
Defined.

(** X8.  Keyword arguments other than [flattening] are ignored without
    complaint: adding one changes neither the result nor the error. *)
Theorem unknown_keywords_ignored (logspace : Z → list R)
    (polyfit : list R → list R → R) (eegdata kmaxv : pyval) (flating : bool)
    (kwargs : gmap string bool) (key : string) (b : bool) :
  key ≠ "flattening" → key ≠ "flating" →
  Higuchi.higuchi_fractal logspace polyfit eegdata kmaxv flating
    (<[key := b]> kwargs) =
  Higuchi.higuchi_fractal logspace polyfit eegdata kmaxv flating kwargs.
Proof.
  intros H1 H2. apply higuchi_fractal_flag.
  unfold Higuchi.effective_flating. by rewrite !lookup_insert_ne.
Qed.

Lemma unknown_keywords_ignored_witness :
  "flatten" ≠ "flattening" ∧ "flatten" ≠ "flating" ∧
  Higuchi.higuchi_fractal Np.logspace_ideal Np.polyfit_ideal PyNone (PyInt 100)
    false (<["flatten" := true]> ∅) =
  Higuchi.higuchi_fractal Np.logspace_ideal Np.polyfit_ideal PyNone (PyInt 100)
    false ∅.
Proof.
  assert ("flatten" ≠ "flattening") as H1 by discriminate.
  assert ("flatten" ≠ "flating") as H2 by discriminate.
  split; [exact H1|]. split; [exact H2|].
  exact (unknown_keywords_ignored Np.logspace_ideal Np.polyfit_ideal PyNone
    (PyInt 100) false ∅ "flatten" true H1 H2).
Defined.

(** X9.  [isinstance(kmax, int)] lets booleans through, [bool] being a
    subclass of [int]: [kmax=True] and [kmax=False] are clamped and act as
    [kmax=2]. *)
Theorem boolean_kmax_acts_as_two (logspace : Z → list R)
    (polyfit : list R → list R → R) (eegdata : pyval) (b flating : bool)
    (kwargs : gmap string bool) :
  Higuchi.higuchi_fractal logspace polyfit eegdata (PyBool b) flating kwargs =
  Higuchi.higuchi_fractal logspace polyfit eegdata (PyInt 2) flating kwargs.
Proof. unfold Higuchi.higuchi_fractal. by destruct b. Qed.

Lemma boolean_kmax_acts_as_two_witness :
  Higuchi.higuchi_fractal Np.logspace_ideal Np.polyfit_ideal PyNone
    (PyBool true) false ∅ =
  Higuchi.higuchi_fractal Np.logspace_ideal Np.polyfit_ideal PyNone (PyInt 2)
    false ∅.
Proof.
  exact (boolean_kmax_acts_as_two Np.logspace_ideal Np.polyfit_ideal PyNone
           true false ∅).
Defined.

(** ** Negating a signal *)

Section Scaling.

Lemma sum_scale (a : R) (l : list R) :
  Np.sum (map (Rmult a) l) = (a * Np.sum l)%R.
Proof.
  induction l as [|v l IH]; [simpl; lra|].
  simpl Np.sum in *. rewrite IH. lra.
Qed.

Lemma take_scale (a : R) (sig : list R) (idx : list nat) :
  Np.take (map (Rmult a) sig) idx = map (Rmult a) (Np.take sig idx).
Proof.
  unfold Np.take. rewrite map_map. apply map_ext. intros i.
  change (map ?f ?x) with (f <$> x). rewrite list_lookup_fmap.
  destruct (sig !! i); simpl; [done|lra].
Qed.

Lemma diff_scale (a : R) (s : list R) :
  Np.diff (map (Rmult a) s) = map (Rmult a) (Np.diff s).
Proof.
  induction s as [|x [|y t] IH]; [done..|].
  change (Np.diff (x :: y :: t)) with ((y - x)%R :: Np.diff (y :: t)).
  change (Np.diff (map (Rmult a) (x :: y :: t)))
    with ((a * y - a * x)%R :: Np.diff (map (Rmult a) (y :: t))).
  rewrite IH. simpl. f_equal. lra.
Qed.

Lemma abs_sum_scale (a : R) (l : list R) :
  Np.sum (Np.abs (map (Rmult a) l)) = (Rabs a * Np.sum (Np.abs l))%R.
Proof.
  unfold Np.abs. induction l as [|v l IH]; [simpl; lra|].
  simpl Np.sum in *. rewrite IH, Rabs_mult. lra.
Qed.

Lemma offset_step_scale (a : R) (sig : list R) (n_time : nat) (k : Z)
    (st : R * nat) (m : nat) :
  Higuchi.offset_step (map (Rmult a) sig) n_time k ((Rabs a * st.1)%R, st.2) m =
  ((Rabs a * (Higuchi.offset_step sig n_time k st m).1)%R,
   (Higuchi.offset_step sig n_time k st m).2).
Proof.
  unfold Higuchi.offset_step.
  destruct (decide (2 ≤ length (Np.arange m n_time (Z.to_nat k)))%nat); [|done].
  simpl. f_equal.
  rewrite take_scale, diff_scale, abs_sum_scale.
  unfold Np.abs. rewrite !length_map. unfold Rdiv. ring.
Qed.

Lemma offset_fold_scale (a : R) (sig : list R) (n_time : nat) (k : Z)
    (ms : list nat) (st : R * nat) :
  foldl (Higuchi.offset_step (map (Rmult a) sig) n_time k)
    ((Rabs a * st.1)%R, st.2) ms =
  ((Rabs a * (foldl (Higuchi.offset_step sig n_time k) st ms).1)%R,
   (foldl (Higuchi.offset_step sig n_time k) st ms).2).
Proof.
  revert st. induction ms as [|m ms IH]; intros st; [done|].
  simpl. rewrite offset_step_scale. apply IH.
Qed.

Lemma offset_loop_scale (a : R) (sig : list R) (n_time : nat) (k : Z) :
  Higuchi.offset_loop (map (Rmult a) sig) n_time k =
  ((Rabs a * (Higuchi.offset_loop sig n_time k).1)%R,
   (Higuchi.offset_loop sig n_time k).2).
Proof.
  unfold Higuchi.offset_loop.
  rewrite <- (offset_fold_scale a sig n_time k _ (0%R, 0%nat)).
  simpl. by rewrite Rmult_0_r.
Qed.

Lemma center_scale (a : R) (sig : list R) :
  Higuchi.center (map (Rmult a) sig) = map (Rmult a) (Higuchi.center sig).
Proof.
  unfold Higuchi.center, Np.mean.
  rewrite sum_scale, length_map, !map_map.
  apply map_ext. intros v. unfold Rdiv. ring.
Qed.

Lemma map_opp_scale (sig : list R) : map Ropp sig = map (Rmult (-1)) sig.
Proof. apply map_ext. intros v. lra. Qed.

End Scaling.

(** X11.  Negating a signal does not change its HFD. *)
Theorem hfd_negation_invariant (polyfit : list R → list R → R)
    (scales : list Z) (n_time : nat) (sig : list R) :
  Higuchi.hfd_signal polyfit scales n_time (map Ropp sig) =
  Higuchi.hfd_signal polyfit scales n_time sig.
Proof.
  unfold Higuchi.hfd_signal. rewrite map_opp_scale, center_scale.
  f_equal. apply map_ext. intros k.
  unfold Higuchi.lk_entry, Higuchi.Lk.
  rewrite offset_loop_scale.
  replace (Rabs (-1)) with 1%R
    by (rewrite Rabs_left1 by lra; lra).
  simpl. by rewrite Rmult_1_l.
Qed.

Lemma hfd_negation_invariant_witness :
  Higuchi.hfd_signal Np.polyfit_ideal [1; 2]%Z 4 (map Ropp [1; 4; 2; 8]%R) =
  Higuchi.hfd_signal Np.polyfit_ideal [1; 2]%Z 4 [1; 4; 2; 8]%R.
Proof.
  exact (hfd_negation_invariant Np.polyfit_ideal [1; 2]%Z 4 [1; 4; 2; 8]%R).
Defined.

(** X16.  The offset loop stays in bounds for any scale [k >= 1]: every
    index of [np.arange(m, n_time, k)] is a valid index of the signal, and
    when an offset qualifies the divisor [d.size * k] of [L_mk] is at least
    1. *)
Theorem offset_step_in_bounds (sig : list R) (k : Z) (m : nat) :
  (1 ≤ k)%Z →
  let idx := Np.arange m (length sig) (Z.to_nat k) in
  Forall (λ i, is_Some (sig !! i)) idx ∧
  ((2 ≤ length idx)%nat →
   (1 ≤ Z.of_nat (length (Np.abs (Np.diff (Np.take sig idx)))) * k)%Z).
Proof.
  intros Hk idx. split.
  - apply Forall_forall. intros i Hi. apply lookup_lt_is_Some.
    apply (arange_in_range m (length sig) (Z.to_nat k)); [lia|done].
  - intros Hq. unfold Np.abs. rewrite length_map, diff_length, take_length.
    nia.
Qed.

Lemma offset_step_in_bounds_witness :
  (1 ≤ 3)%Z ∧
  Forall (λ i, is_Some ([1; 2; 3; 4; 5; 6; 7]%R !! i))
    (Np.arange 1 (length [1; 2; 3; 4; 5; 6; 7]%R) (Z.to_nat 3)).
Proof.
  assert (1 ≤ 3)%Z as H by lia.
  split; [exact H|].
  exact (proj1 (offset_step_in_bounds [1; 2; 3; 4; 5; 6; 7]%R 3 1 H)).
Defined.

(** ** The per-subject drivers *)

Section Drivers.

Variable evaluate : nat → result R.
Variable fmt4 : R → string.
Variable exn_str : exn → string.

(** The entry appended for a subject. *)
Local Abbreviation entry_of subject :=
  (match evaluate subject with Ok acc => Some acc | Raise _ => None end).

Lemma subject_fold_spec (subjects : list nat) (st : list (option R) * list string) :
  let r := foldl (Pipeline.subject_step evaluate fmt4 exn_str) st subjects in
  r.1 = st.1 ++ map (λ subject, entry_of subject) subjects ∧
  length r.2 = (length st.2 + 2 * length subjects)%nat.
Proof.
  revert st. induction subjects as [|s subjects IH]; intros st.
  { simpl. split; [by rewrite app_nil_r|lia]. }
  simpl foldl. destruct (IH (Pipeline.subject_step evaluate fmt4 exn_str st s))
    as [IH1 IH2].
  cbv zeta. rewrite IH1, IH2. unfold Pipeline.subject_step.
  destruct (evaluate s) eqn:He; simpl; rewrite He, <- app_assoc, !length_app;
    simpl; (split; [done|lia]).
Qed.

Lemma process_subjects_spec (subjects : list nat) :
  let r := Pipeline.process_subjects evaluate fmt4 exn_str subjects in
  r.1 = map (λ subject, entry_of subject) subjects ∧
  length r.2 = (2 * length subjects)%nat.
Proof.
  unfold Pipeline.process_subjects.
  destruct (subject_fold_spec subjects ([], [])) as [H1 H2]. cbv zeta in *.
  by rewrite H1, H2.
Qed.

Lemma foldl_Rmax_spec (x : R) (t : list R) :
  foldl Rmax x t ∈ x :: t ∧ ∀ y, y ∈ x :: t → (y <= foldl Rmax x t)%R.
Proof.
  revert x. induction t as [|z t IH]; intros x; simpl.
  { split; [by left|]. intros y Hy%list_elem_of_singleton. subst. lra. }
  destruct (IH (Rmax x z)) as [Hin Hle]. split.
  - apply elem_of_cons in Hin as [Heq|Hin]; [|by right; right].
    rewrite Heq. unfold Rmax. destruct (Rle_dec x z); [right|]; by left.
  - intros y Hy.
    assert (Rmax x z <= foldl Rmax (Rmax x z) t)%R as Hm by (apply Hle; by left).
    pose proof (Rmax_l x z). pose proof (Rmax_r x z).
    apply elem_of_cons in Hy as [->|Hy]; [lra|].
    apply elem_of_cons in Hy as [->|Hy]; [lra|].
    apply Hle. by right.
Qed.

Lemma foldl_Rmin_spec (x : R) (t : list R) :
  foldl Rmin x t ∈ x :: t ∧ ∀ y, y ∈ x :: t → (foldl Rmin x t <= y)%R.
Proof.
  revert x. induction t as [|z t IH]; intros x; simpl.
  { split; [by left|]. intros y Hy%list_elem_of_singleton. subst. lra. }
  destruct (IH (Rmin x z)) as [Hin Hle]. split.
  - apply elem_of_cons in Hin as [Heq|Hin]; [|by right; right].
    rewrite Heq. unfold Rmin. destruct (Rle_dec x z); [|right]; by left.
  - intros y Hy.
    assert (foldl Rmin (Rmin x z) t <= Rmin x z)%R as Hm by (apply Hle; by left).
    pose proof (Rmin_l x z). pose proof (Rmin_r x z).
    apply elem_of_cons in Hy as [->|Hy]; [lra|].
    apply elem_of_cons in Hy as [->|Hy]; [lra|].
    apply Hle. by right.
Qed.

Lemma valid_accuracies_elem (accs : list (option R)) (acc : R) :
  acc ∈ Pipeline.valid_accuracies accs ↔ Some acc ∈ accs.
Proof.
  unfold Pipeline.valid_accuracies. rewrite list_elem_of_omap. split.
  - by intros (o & Ho & ->).
  - intros Hin. by exists (Some acc).
Qed.

End Drivers.

(** X17.  [process_all_subjects] returns one entry per subject, in
    subject order, 9 of them in [csp_fractal] (subjects 1 to 9) and 10 in
    [fbcsp_fractal] (subjects 1 to 10): the accuracy when the evaluation of
    the subject returns, [None] when it raises.  An exception of one
    subject never leaves the loop, and two lines are printed per
    subject. *)
Theorem process_all_subjects_entries (evaluate : nat → result R)
    (fmt4 : R → string) (exn_str : exn → string) :
  let entry subject :=
    match evaluate subject with Ok acc => Some acc | Raise _ => None end in
  let csp := Pipeline.csp_fractal_all evaluate fmt4 exn_str in
  let fbcsp := Pipeline.fbcsp_fractal_all evaluate fmt4 exn_str in
  (length csp.1 = 9%nat ∧ length csp.2 = 18%nat ∧
   ∀ subject, (1 ≤ subject ≤ 9)%nat →
     csp.1 !! (subject - 1)%nat = Some (entry subject)) ∧
  (length fbcsp.1 = 10%nat ∧ length fbcsp.2 = 20%nat ∧
   ∀ subject, (1 ≤ subject ≤ 10)%nat →
     fbcsp.1 !! (subject - 1)%nat = Some (entry subject)).
Proof.
  intros entry csp fbcsp.
  destruct (process_subjects_spec evaluate fmt4 exn_str (seq 1 9)) as [C1 C2].
  destruct (process_subjects_spec evaluate fmt4 exn_str (seq 1 10)) as [F1 F2].
  cbv zeta in C1, C2, F1, F2.
  unfold csp, fbcsp, Pipeline.csp_fractal_all, Pipeline.fbcsp_fractal_all.
  split.
  - rewrite C1, C2. split; [done|]. split; [done|].
    intros subject Hs. change (map ?f ?x) with (f <$> x).
    rewrite list_lookup_fmap, lookup_seq_lt by lia. simpl.
    by replace (S (subject - 1)) with subject by lia.
  - rewrite F1, F2. split; [done|]. split; [done|].
    intros subject Hs. change (map ?f ?x) with (f <$> x).
    rewrite list_lookup_fmap, lookup_seq_lt by lia. simpl.
    by replace (S (subject - 1)) with subject by lia.
Qed.

Lemma process_all_subjects_entries_witness :
  let evaluate (subject : nat) : result R :=
    if decide (subject = 3%nat) then Raise (ValueError "no data")
    else Ok (1 / 2)%R in
  (Pipeline.csp_fractal_all evaluate (λ _, "0.5000") (λ _, "no data")).1
    !! 2%nat = Some None ∧
  length (Pipeline.fbcsp_fractal_all evaluate (λ _, "0.5000")
            (λ _, "no data")).1 = 10%nat.
Proof.
  intros evaluate.
  destruct (process_all_subjects_entries evaluate (λ _, "0.5000")
              (λ _, "no data")) as [(_ & _ & Hc) (Hf & _)].
  split; [|exact Hf].
  exact (Hc 3%nat ltac:(lia)).
Defined.

(** X18.  The summary printed after the loop: nothing is printed exactly
    when every subject failed; otherwise at least one accuracy is valid, so
    the division by their number is not a division by zero, and the maximum
    and the minimum printed are accuracies of the list that bound all the
    others. *)
Theorem summary_statistics (accs : list (option R)) :
  (Pipeline.summary accs = None ↔ ∀ acc, Some acc ∉ accs) ∧
  ∀ mean mx mn, Pipeline.summary accs = Some (mean, mx, mn) →
    Some mx ∈ accs ∧ Some mn ∈ accs ∧
    (∀ acc, Some acc ∈ accs → (mn <= acc <= mx)%R) ∧
    (0 < length (Pipeline.valid_accuracies accs))%nat.
Proof.
  unfold Pipeline.summary.
  destruct (Pipeline.valid_accuracies accs) as [|x t] eqn:Hv.
  - split.
    + split; [|done]. intros _ acc Hacc.
      apply valid_accuracies_elem in Hacc. rewrite Hv in Hacc.
      by apply elem_of_nil in Hacc.
    + intros ??? [=].
  - split.
    + split; [done|]. intros Hnone. exfalso. apply (Hnone x).
      apply valid_accuracies_elem. rewrite Hv. by left.
    + intros mean mx mn [= <- <- <-].
      destruct (foldl_Rmax_spec x t) as [Hmx Hmax].
      destruct (foldl_Rmin_spec x t) as [Hmn Hmin].
      split; [apply valid_accuracies_elem; by rewrite Hv|].
      split; [apply valid_accuracies_elem; by rewrite Hv|].
      split; [|simpl; lia].
      intros acc Hacc. apply valid_accuracies_elem in Hacc.
      rewrite Hv in Hacc. split; [by apply Hmin|by apply Hmax].
Qed.

Lemma summary_statistics_witness :
  let accs := [Some (1 / 2)%R; None; Some (3 / 4)%R] in
  Pipeline.summary accs = Some ((1 / 2 + 3 / 4) / 2, 3 / 4, 1 / 2)%R ∧
  Some (3 / 4)%R ∈ accs ∧ Some (1 / 2)%R ∈ accs.
Proof.
  intros accs.
  assert (Pipeline.summary accs =
            Some ((1 / 2 + 3 / 4) / 2, 3 / 4, 1 / 2)%R) as Hs.
  { unfold Pipeline.summary, Pipeline.py_sum. simpl.
    rewrite Rmax_right, Rmin_left by lra. do 3 f_equal. lra. }
  split; [exact Hs|].
  destruct (proj2 (summary_statistics accs) _ _ _ Hs) as (Hmx & Hmn & _).
  split; [exact Hmx|exact Hmn].
Defined.
